(** * collector.py: aggregation and reachability filtering of proxy nodes

    A shallow embedding of [collector.py].  Python values loaded from YAML
    are an inductive type, the module's effects (network, log, the global
    [merged_proxies], the output file) are threaded through a state and
    exception monad, and everything the program cannot decide by itself
    (the network, the file system, the YAML decoder, the order in which the
    thread pool completes its tasks) is read from an environment record.

    The clock readings and the latencies computed from them are doubles
    (IEEE 754 binary64, the kernel's primitive floats), and lines 98 and 104
    compute on them with the rounding of the machine; the latency a probe
    returns is carried on as the rational value of that double, which the
    thresholds are compared with exactly.  A worker's task is run to its
    end in one piece: [list.extend] and the tasks' other steps do not
    interleave with those of another task on the state they share. *)

From Stdlib Require Import Ascii String QArith Floats.
From Stdlib Require Uint63.
From stdpp Require Import list strings gmap.

Set Warnings "-register-all,-inexact-float".
Local Open Scope Z_scope.

(** ** Python values *)

(** The values [yaml.safe_load] produces, restricted to the JSON-like core:
    a float is a double (infinities and NaN included), mapping keys are
    strings, and a mapping keeps its insertion order. *)
Inductive pyval : Type :=
  | VNone
  | VBool (b : bool)
  | VInt (z : Z)
  | VFloat (f : float)
  | VStr (s : string)
  | VList (l : list pyval)
  | VDict (d : list (string * pyval)).

(** The exceptions the program can meet.  All of them derive from
    [Exception]; [RequestException] is the one [fetch_and_process_url]
    singles out. *)
Inductive exn : Type :=
  | AttributeError
  | TypeError
  | ValueError
  | OverflowError
  | OSError
  | YAMLError
  | RequestException
  | OtherException.

Inductive result (A : Type) : Type :=
  | Ok (a : A)
  | Raise (e : exn).
Arguments Ok {A} a.
Arguments Raise {A} e.

(** ** Floats *)
Module PyFloat.

(** The value of a double, as a rational.  An infinity or a NaN has none:
    it is given 0, which like them lies outside every window between
    positive bounds. *)
Definition value (f : float) : Q :=
  match Prim2SF f with
  | S754_finite s m e =>
      let n := if s then Z.neg m else Z.pos m in
      if 0 <=? e then inject_Z (n * 2 ^ e) else (n # 2 ^ Z.to_pos (- e))%Q
  | S754_zero _ | S754_infinity _ | S754_nan => 0%Q
  end.

(** [int(f)]: truncation towards zero; an infinity is an [OverflowError]
    and a NaN a [ValueError]. *)
Definition to_int (f : float) : result Z :=
  match Prim2SF f with
  | S754_zero _ => Ok 0
  | S754_finite s m e =>
      let n := if 0 <=? e then Z.pos m * 2 ^ e else Z.pos m / 2 ^ (- e) in
      Ok (if s then - n else n)
  | S754_infinity _ => Raise OverflowError
  | S754_nan => Raise ValueError
  end.

(** The double of a count, as the division of a float by an [int] takes
    it: exact below 2^53. *)
Definition of_nat (n : nat) : float := PrimFloat.of_uint63 (Uint63.of_Z (Z.of_nat n)).

End PyFloat.

(** ** Strings

    A string is a sequence of 8-bit characters, read as the code points
    below 256. *)
Module PyStr.

Definition code (c : ascii) : N := N_of_ascii c.

(** [str.isspace] on one character: TAB..CR, FS..US, space, NEL, NBSP. *)
Definition isspace (c : ascii) : bool :=
  let n := code c in
  ((9 <=? n) && (n <=? 13) || (28 <=? n) && (n <=? 32)
   || (n =? 133) || (n =? 160))%N.

Fixpoint lstrip (s : string) : string :=
  match s with
  | EmptyString => EmptyString
  | String c s' => if isspace c then lstrip s' else s
  end.

Fixpoint rstrip (s : string) : string :=
  match s with
  | EmptyString => EmptyString
  | String c s' =>
      match rstrip s' with
      | EmptyString => if isspace c then EmptyString else String c EmptyString
      | r => String c r
      end
  end.

(** [s.strip()] *)
Definition strip (s : string) : string := rstrip (lstrip s).

(** [s.startswith(p)] *)
Definition startswith (s p : string) : bool := String.prefix p s.

(** [str.lower] on one character: A..Z, and the Latin-1 capitals
    (all of 192..222 but the multiplication sign 215). *)
Definition lower_char (c : ascii) : ascii :=
  let n := code c in
  if ((65 <=? n) && (n <=? 90)
      || (192 <=? n) && (n <=? 222) && negb (n =? 215))%N
  then ascii_of_N (n + 32) else c.

(** [s.lower()] *)
Fixpoint lower (s : string) : string :=
  match s with
  | EmptyString => EmptyString
  | String c s' => String (lower_char c) (lower s')
  end.

(** The characters of a string, each as a one-character string: what
    iterating over a [str] yields. *)
Fixpoint chars (s : string) : list string :=
  match s with
  | EmptyString => []
  | String c s' => String c EmptyString :: chars s'
  end.

Definition isdigit (c : ascii) : bool :=
  let n := code c in ((48 <=? n) && (n <=? 57))%N.

Definition digit_val (c : ascii) : Z := Z.of_N (code c) - 48.

(** The whitespace [int] drops around a literal: TAB..CR, space, NEL and
    NBSP; unlike [str.strip], not FS..US. *)
Definition isspace_int (c : ascii) : bool :=
  let n := code c in
  ((9 <=? n) && (n <=? 13) || (n =? 32) || (n =? 133) || (n =? 160))%N.

Fixpoint lstrip_int (s : string) : string :=
  match s with
  | EmptyString => EmptyString
  | String c s' => if isspace_int c then lstrip_int s' else s
  end.

Fixpoint rstrip_int (s : string) : string :=
  match s with
  | EmptyString => EmptyString
  | String c s' =>
      match rstrip_int s' with
      | EmptyString => if isspace_int c then EmptyString else String c EmptyString
      | r => String c r
      end
  end.

(** [sys.get_int_max_str_digits()], as the interpreter starts. *)
Definition max_str_digits : nat := 4300.

(** The digits of an integer literal, most significant first: at least
    one digit, with single underscores allowed between digits, and no more
    than [max_str_digits] digits in all.  [after_digit] tells whether the
    previous character was a digit and [count] how many digits were read. *)
Fixpoint digits (s : string) (after_digit : bool) (count : nat) (acc : Z) : option Z :=
  match s with
  | EmptyString =>
      if after_digit && (count <=? max_str_digits)%nat then Some acc else None
  | String c s' =>
      if isdigit c then digits s' true (S count) (10 * acc + digit_val c)
      else if (code c =? 95)%N && after_digit then
        match s' with
        | String d _ => if isdigit d then digits s' false count acc else None
        | EmptyString => None
        end
      else None
  end.

(** [int(s)] for a string, base 10: the whitespace around the literal is
    dropped, a sign is allowed; [None] stands for [ValueError]. *)
Definition parse_int (s : string) : option Z :=
  match rstrip_int (lstrip_int s) with
  | String "-" s' => Z.opp <$> digits s' false 0 0
  | String "+" s' => digits s' false 0 0
  | s' => digits s' false 0 0
  end.

End PyStr.

(** ** Operations on values *)

(** [bool(v)] *)
Definition truthy (v : pyval) : bool :=
  match v with
  | VNone => false
  | VBool b => b
  | VInt z => negb (z =? 0)
  | VFloat f => negb (PrimFloat.eqb f 0)
  | VStr s => negb (String.eqb s EmptyString)
  | VList l => negb (bool_decide (length l = 0%nat))
  | VDict d => negb (bool_decide (length d = 0%nat))
  end.

(** [int(v)]: an int is itself, a bool is 0 or 1, a float is truncated
    towards zero when it is finite, a string is parsed; anything else is a
    [TypeError]. *)
Definition py_int (v : pyval) : result Z :=
  match v with
  | VInt z => Ok z
  | VBool b => Ok (if b then 1 else 0)
  | VFloat f => PyFloat.to_int f
  | VStr s => match PyStr.parse_int s with Some z => Ok z | None => Raise ValueError end
  | VNone | VList _ | VDict _ => Raise TypeError
  end.

Fixpoint assoc (k : string) (d : list (string * pyval)) : option pyval :=
  match d with
  | [] => None
  | (k', v) :: d' => if String.eqb k k' then Some v else assoc k d'
  end.

(** [v.get(k, default)]: only a mapping has [get]. *)
Definition py_get (v : pyval) (k : string) (dflt : pyval) : result pyval :=
  match v with
  | VDict d => Ok (default dflt (assoc k d))
  | _ => Raise AttributeError
  end.

(** ** The environment and the world *)

(** One TCP connect attempt is the body of the loop of
    [tcp_connection_test]: a fresh socket with [settimeout(timeout)], and
    [connect_ex((server, port))] between two readings of the clock. *)
Record connect_call : Type := ConnectCall {
  cc_server : pyval;
  cc_port : Z;
  cc_timeout : Q;
}.

(** What the network makes of an attempt: [connect_ex] returns an error
    code ([0] for a connection), the clock having read [start_time] before
    and [end_time] after, in seconds; or an exception leaves the body. *)
Inductive connect_outcome : Type :=
  | Returned (start_time end_time : float) (code : Z)
  | Raised (e : exn).

(** A URL list file: absent, present with these lines
    ([file.read().splitlines()]), or failing to open or read. *)
Inductive file_outcome : Type :=
  | Missing
  | Lines (ls : list string)
  | Unreadable (e : exn).

(** [requests.get(url)], [raise_for_status()] and [.text] together. *)
Inductive fetch_outcome : Type :=
  | Body (data : string)
  | FetchFails (e : exn).

(** Writing the output file: it succeeds, or [open] fails and leaves the
    disk as it was, or [yaml.dump] fails after [open] truncated the file and
    leaves a document that loads as [doc]. *)
Inductive write_outcome : Type :=
  | Written
  | OpenFails (e : exn)
  | DumpFails (e : exn) (doc : result pyval).

Record Env : Type := {
  (** the URL list files, by path *)
  url_list : string -> file_outcome;
  (** the answer to the fetch task of this index for this URL *)
  http_get : nat -> string -> fetch_outcome;
  (** [yaml.safe_load] on a fetched body *)
  safe_load : string -> result pyval;
  (** the order in which [n] fetch tasks run to their end, by index *)
  fetch_order : nat -> list nat;
  (** the outcome of a connect attempt, after so many earlier attempts *)
  connect : nat -> connect_call -> connect_outcome;
  (** the order in which [as_completed] yields [n] probe futures *)
  probe_order : nat -> list nat;
  (** the outcome of a write of the output file, after so many earlier ones *)
  write : nat -> write_outcome;
  (** what [yaml.safe_load] reads back for a node that [yaml.dump] wrote in
      the output file *)
  dump_load : pyval -> result pyval;
}.

Inductive level : Type := INFO | WARNING | ERROR.

(** The messages of the [logging] calls, one constructor per call site. *)
Inductive log_msg : Type :=
  | FileNotFound (url_file : string)
  | ProcessingURLs (n : nat)
  | ErrorInURLProcessing (e : exn)
  | ErrorProcessingURLs (e : exn)
  | FetchingURL (url : string)
  | ErrorProcessingURL (url : string) (e : exn)
  | NoProxyConfiguration (index : nat)
  | ErrorProcessingClash (index : nat) (e : exn)
  | SkippedProtocol (proto : pyval)
  | ConnectionError (e : exn)
  | TCPTestFailed (e : exn)
  | NodeAvailable (name server port : pyval) (latency : option Q)
  | NodeUnavailable (name server port : pyval)
  | ErrorCheckingProxy (name : pyval) (e : exn)
  | ErrorLoadingYAML (file_path : string) (e : exn)
  | ErrorSavingYAML (file_path : string) (e : exn)
  | AggregationCompleted
  | AvailableProxiesSaved (file_path : string)
  | NoProxiesToCheck.

(** The state the program changes: the connect attempts made so far, the
    log, the global list [merged_proxies], the files holding YAML (by path,
    with what [yaml.safe_load] gives on them) and the writes attempted. *)
Record World : Type := {
  attempts : list connect_call;
  log : list (level * log_msg);
  merged_proxies : list pyval;
  disk : gmap string (result pyval);
  writes : list (string * list pyval);
}.

Definition set_attempts (f : list connect_call -> list connect_call) (w : World) : World :=
  {| attempts := f (attempts w); log := log w; merged_proxies := merged_proxies w;
     disk := disk w; writes := writes w |}.

Definition set_log (f : list (level * log_msg) -> list (level * log_msg)) (w : World) : World :=
  {| attempts := attempts w; log := f (log w); merged_proxies := merged_proxies w;
     disk := disk w; writes := writes w |}.

Definition set_merged_proxies (f : list pyval -> list pyval) (w : World) : World :=
  {| attempts := attempts w; log := log w; merged_proxies := f (merged_proxies w);
     disk := disk w; writes := writes w |}.

Definition set_disk (f : gmap string (result pyval) -> gmap string (result pyval))
    (w : World) : World :=
  {| attempts := attempts w; log := log w; merged_proxies := merged_proxies w;
     disk := f (disk w); writes := writes w |}.

Definition set_writes (f : list (string * list pyval) -> list (string * list pyval))
    (w : World) : World :=
  {| attempts := attempts w; log := log w; merged_proxies := merged_proxies w;
     disk := disk w; writes := f (writes w) |}.

(** ** The monad of the program: state and exceptions *)

Definition M (A : Type) : Type := World -> result A * World.

Definition ret {A} (a : A) : M A := fun w => (Ok a, w).

Definition raise {A} (e : exn) : M A := fun w => (Raise e, w).

Definition bind {A B} (m : M A) (k : A -> M B) : M B :=
  fun w => match m w with
           | (Ok a, w') => k a w'
           | (Raise e, w') => (Raise e, w')
           end.

(** [try: body  except Exception as e: handler(e)] *)
Definition try_except {A} (body : M A) (handler : exn -> M A) : M A :=
  fun w => match body w with
           | (Ok a, w') => (Ok a, w')
           | (Raise e, w') => handler e w'
           end.

(** [try: body  except E as e: handler(e)], for the exceptions [catches]
    accepts. *)
Definition try_except_only {A} (catches : exn -> bool) (body : M A)
    (handler : exn -> M A) : M A :=
  fun w => match body w with
           | (Ok a, w') => (Ok a, w')
           | (Raise e, w') => if catches e then handler e w' else (Raise e, w')
           end.

Definition lift {A} (r : result A) : M A := fun w => (r, w).

(** A task run to its end by a worker: what it returns or raises is kept in
    its future, and never raised in the worker. *)
Definition run_task {A} (task : M A) : M (result A) :=
  fun w => let '(r, w') := task w in (Ok r, w').

(** [future.result()] *)
Definition future_result {A} (future : result A) : M A := lift future.

Declare Scope py_scope.
Delimit Scope py_scope with py.
Notation "x <- m ;; k" := (bind m (fun x => k))
  (at level 100, m at next level, right associativity) : py_scope.
Notation "m ;; k" := (bind m (fun _ => k))
  (at level 100, right associativity) : py_scope.
Local Open Scope py_scope.

(** [for x in xs: body], with the variables the loop assigns threaded as
    [s]; an exception leaves the loop. *)
Fixpoint for_each {A S} (xs : list A) (body : A -> S -> M S) (s : S) : M S :=
  match xs with
  | [] => ret s
  | x :: xs' => s' <- body x s ;; for_each xs' body s'
  end.

Definition logging (l : level) (m : log_msg) : M unit :=
  fun w => (Ok tt, set_log (fun ls => ls ++ [(l, m)]) w).

(** [as_completed(futures)]: the futures in the order the environment
    completes them, given by their indices. *)
Definition as_completed {A} (order : nat -> list nat) (futures : list A) : list A :=
  omap (fun i => futures !! i) (order (length futures)).

(** A pool whose tasks share state: the tasks run one after the other in
    the order [order], and the futures come in that order too.  [run_nth]
    runs the task of index [i]. *)
Definition run_nth {A} (tasks : list (M A)) (i : nat) (futures : list (result A))
    : M (list (result A)) :=
  match tasks !! i with
  | Some task => future <- run_task task ;; ret (futures ++ [future])
  | None => ret futures
  end.

Definition run_pool {A} (order : list nat) (tasks : list (M A)) : M (list (result A)) :=
  for_each order (run_nth tasks) [].

(** ** The constants of the module *)

Definition LATENCY_THRESHOLD : Z := 30.
Definition MIN_LATENCY_THRESHOLD : Z := 1.
Definition URL_FILE_OR_FILES : list string := ["./urls/clash.txt"; "./urls/xxx.txt"].
Definition MERGED_PROXIES_FILE : string := "./sub/merged_proxies.yaml".

Section Collector.

Variable env : Env.

(** ** [tcp_connection_test] *)

Definition skip_protocols : gset string :=
  {[ "hysteria"; "hysteria2"; "hy2"; "tuic"; "wireguard"; "juicity" ]}.

(** [proto.lower()]: a [str] has the method, the other values have not. *)
Definition py_lower (v : pyval) : result string :=
  match v with
  | VStr s => Ok (PyStr.lower s)
  | _ => Raise AttributeError
  end.

(** Lines 90 to 95: one connect attempt, entered in [attempts]; it gives
    the two readings of the clock and the code of [connect_ex]. *)
Definition connect_attempt (server : pyval) (port : Z) (timeout : Q)
    : M (float * float * Z) :=
  fun w =>
    let c := ConnectCall server port timeout in
    let w' := set_attempts (fun cs => cs ++ [c]) w in
    match connect env (length (attempts w)) c with
    | Returned start_time end_time code => (Ok (start_time, end_time, code), w')
    | Raised e => (Raise e, w')
    end.

(** [sum(latencies)]: the additions of doubles from 0, left to right, as
    CPython 3.11 makes them. *)
Definition py_sum (latencies : list float) : float :=
  fold_left PrimFloat.add latencies 0%float.

(** [len(latencies)], as the division takes it. *)
Definition py_len (latencies : list float) : float := PyFloat.of_nat (length latencies).

(** Lines 89 to 101, the body of the loop: an attempt that connects adds
    its duration in milliseconds to [latencies]. *)
Definition attempt_once (server : pyval) (port : Z) (timeout : Q)
    (latencies : list float) : M (list float) :=
  try_except
    (r <- connect_attempt server port timeout ;;
     let '(start_time, end_time, code) := r in
     if code =? 0 then
       let latency := ((end_time - start_time) * 1000)%float in
       ret (latencies ++ [latency])
     else ret latencies)
    (fun e => logging ERROR (ConnectionError e) ;; ret latencies).

(** The latency returned is a double; the result carries its value. *)
Definition tcp_connection_test (server : pyval) (port : Z) (proto : pyval)
    (timeout : Q) : M (bool * option Q) :=
  proto_lower <- lift (py_lower proto) ;;
  if bool_decide (proto_lower ∈ skip_protocols) then
    logging INFO (SkippedProtocol proto) ;;
    ret (false, None)
  else
    try_except
      (latencies <-
         for_each (seq 0 3) (fun _ => attempt_once server port timeout) [] ;;
       match latencies with
       | _ :: _ =>
           let average_latency := (py_sum latencies / py_len latencies)%float in
           ret (true, Some (PyFloat.value average_latency))
       | [] => ret (false, None)
       end)
      (fun e => logging ERROR (TCPTestFailed e) ;; ret (false, None)).

(** ** [check_proxies_availability] *)

(** Iterating over a value: the items of a list, the characters of a
    string, the keys of a mapping; a [TypeError] otherwise. *)
Definition py_iter (v : pyval) : result (list pyval) :=
  match v with
  | VList l => Ok l
  | VStr s => Ok (VStr <$> PyStr.chars s)
  | VDict d => Ok ((fun kv => VStr (fst kv)) <$> d)
  | VNone | VBool _ | VInt _ | VFloat _ => Raise TypeError
  end.

(** [LATENCY_THRESHOLD >= latency >= MIN_LATENCY_THRESHOLD]; comparing
    [None] with a number is a [TypeError]. *)
Definition within_thresholds (latency : option Q) : result bool :=
  match latency with
  | Some l => Ok (Qle_bool l (inject_Z LATENCY_THRESHOLD)
                  && Qle_bool (inject_Z MIN_LATENCY_THRESHOLD) l)
  | None => Raise TypeError
  end.

(** Line 136: [is_available and LATENCY_THRESHOLD >= latency >=
    MIN_LATENCY_THRESHOLD]. *)
Definition available_in_range (is_available : bool) (latency : option Q) : result bool :=
  if is_available then within_thresholds latency else Ok false.

(** A future of the probe phase with the proxy it was submitted for: an
    item of the dictionary [futures]. *)
Definition probe_future : Type := result (bool * option Q) * pyval.

(** Lines 117 to 127, one step of the comprehension that builds the
    dictionary [futures].  The probe tasks share nothing but the network,
    whose answer to each attempt is the environment's: a task is run when it
    is submitted.  The pool may interleave the attempts of tasks that run
    side by side, so of the order of [attempts] only that of the attempts of
    one task is meant. *)
Definition submit_one (timeout : Q) (proxy : pyval) (futures : list probe_future)
    : M (list probe_future) :=
  server <- lift (py_get proxy "server" VNone) ;;
  selected <- (if truthy server
               then port <- lift (py_get proxy "port" VNone) ;; ret (truthy port)
               else ret false) ;;
  if selected then
    server <- lift (py_get proxy "server" VNone) ;;
    port <- lift (py_get proxy "port" VNone) ;;
    port <- lift (py_int port) ;;
    proto <- lift (py_get proxy "type" (VStr "tcp")) ;;
    future <- run_task (tcp_connection_test server port proto timeout) ;;
    ret (futures ++ [(future, proxy)])
  else ret futures.

Definition submit_probes (proxies : list pyval) (timeout : Q) : M (list probe_future) :=
  for_each proxies (submit_one timeout) [].

(** Lines 130 to 142, the body of the loop over [as_completed(futures)]. *)
Definition collect_one (future_proxy : probe_future) (available_proxies : list pyval)
    : M (list pyval) :=
  let '(future, proxy) := future_proxy in
  server <- lift (py_get proxy "server" VNone) ;;
  port <- lift (py_get proxy "port" VNone) ;;
  name <- lift (py_get proxy "name" (VStr "Unnamed")) ;;
  try_except
    (r <- future_result future ;;
     let '(is_available, latency) := r in
     in_range <- lift (available_in_range is_available latency) ;;
     if in_range then
       logging INFO (NodeAvailable name server port latency) ;;
       ret (available_proxies ++ [proxy])
     else
       logging INFO (NodeUnavailable name server port) ;;
       ret available_proxies)
    (fun e => logging ERROR (ErrorCheckingProxy name e) ;; ret available_proxies).

(** Lines 129 to 142: the futures come in the order [probe_order env]. *)
Definition collect_available (futures : list probe_future) : M (list pyval) :=
  for_each (as_completed (probe_order env) futures) collect_one [].

Definition check_proxies_availability (proxies : pyval) (timeout : Q) : M (list pyval) :=
  proxies <- lift (py_iter proxies) ;;
  futures <- submit_probes proxies timeout ;;
  collect_available futures.

(** ** [process_urls], [fetch_and_process_url], [process_clash] *)

(** Line 33: the lines kept as URLs, stripped. *)
Definition clean_urls (urls : list string) : list string :=
  PyStr.strip <$>
    filter (fun url => negb (String.eqb (PyStr.strip url) EmptyString)
                       && negb (PyStr.startswith url "#")) urls.

Definition process_clash (data : string) (index : nat) : M unit :=
  try_except
    (content <- lift (safe_load env data) ;;
     proxies <- lift (py_get content "proxies" (VList [])) ;;
     if truthy proxies then
       items <- lift (py_iter proxies) ;;
       fun w => (Ok tt, set_merged_proxies (fun l => l ++ items) w)
     else logging WARNING (NoProxyConfiguration index))
    (fun e => logging ERROR (ErrorProcessingClash index e)).

Definition is_RequestException (e : exn) : bool :=
  match e with RequestException => true | _ => false end.

Definition fetch_and_process_url (url : string) (processor : string -> nat -> M unit)
    (index : nat) : M unit :=
  try_except_only is_RequestException
    (logging INFO (FetchingURL url) ;;
     data <- lift (match http_get env index url with
                   | Body data => Ok data
                   | FetchFails e => Raise e
                   end) ;;
     processor data index)
    (fun e => logging ERROR (ErrorProcessingURL url e)).

(** [url_files] is one path or a list of paths. *)
Inductive url_files_arg : Type :=
  | OnePath (p : string)
  | Paths (ps : list string).

(** Lines 24 to 30: the lines of the URL list files that exist. *)
Definition read_url_lines (url_files : list string) : M (list string) :=
  for_each url_files (fun url_file urls =>
    match url_list env url_file with
    | Missing => logging ERROR (FileNotFound url_file) ;; ret urls
    | Lines ls => ret (urls ++ ls)
    | Unreadable e => raise e
    end) [].

(** Lines 37 to 43, the pool of fetch tasks.  The tasks share
    [merged_proxies]: they run in the order [fetch_order env].
    [log_failure] is the body of the loop over [as_completed(futures)]. *)
Definition log_failure (future : result unit) (_ : unit) : M unit :=
  try_except
    (future_result future)
    (fun e => logging ERROR (ErrorInURLProcessing e)).

Definition fetch_all (urls : list string) (processor : string -> nat -> M unit) : M unit :=
  futures <-
    run_pool (fetch_order env (length urls))
      (imap (fun index url => fetch_and_process_url url processor index) urls) ;;
  for_each futures log_failure tt.

Definition process_urls (url_files : url_files_arg)
    (processor : string -> nat -> M unit) : M unit :=
  let url_files := match url_files with OnePath p => [p] | Paths ps => ps end in
  try_except
    (urls <- read_url_lines url_files ;;
     let urls := clean_urls urls in
     logging INFO (ProcessingURLs (length urls)) ;;
     fetch_all urls processor)
    (fun e => logging ERROR (ErrorProcessingURLs e)).

(** ** [load_yaml], [save_yaml], [main] *)

(** [open(file_path, 'r')] and [yaml.safe_load(file)] *)
Definition read_yaml (file_path : string) : M pyval :=
  fun w => match disk w !! file_path with
           | Some doc => (doc, w)
           | None => (Raise OSError, w)
           end.

Definition load_yaml (file_path : string) : M pyval :=
  try_except
    (read_yaml file_path)
    (fun e => logging ERROR (ErrorLoadingYAML file_path e) ;; ret (VDict [])).

(** The nodes of a file that was written, as they read back, or the error
    of the first that does not. *)
Fixpoint dumped_nodes (data : list pyval) : result (list pyval) :=
  match data with
  | [] => Ok []
  | proxy :: data' =>
      match dump_load env proxy, dumped_nodes data' with
      | Ok proxy', Ok nodes => Ok (proxy' :: nodes)
      | Raise e, _ | Ok _, Raise e => Raise e
      end
  end.

(** What [yaml.safe_load] gives on the file that [yaml.dump] wrote for
    [{'proxies': data}]: a mapping with the one key, and under it the list
    of the nodes as they read back. *)
Definition dumped_document (data : list pyval) : result pyval :=
  match dumped_nodes data with
  | Ok nodes => Ok (VDict [("proxies", VList nodes)])
  | Raise e => Raise e
  end.

(** [open(file_path, 'w')] and [yaml.dump({'proxies': data}, file, ...)]. *)
Definition write_yaml (file_path : string) (data : list pyval) : M unit :=
  fun w =>
    let w' := set_writes (fun ws => ws ++ [(file_path, data)]) w in
    match write env (length (writes w)) with
    | Written => (Ok tt, set_disk (insert file_path (dumped_document data)) w')
    | OpenFails e => (Raise e, w')
    | DumpFails e doc => (Raise e, set_disk (insert file_path doc) w')
    end.

Definition save_yaml (file_path : string) (data : list pyval) : M unit :=
  try_except
    (write_yaml file_path data)
    (fun e => logging ERROR (ErrorSavingYAML file_path e)).

(** A run that ends in [Ok tt] exits normally; one that ends in [Raise e]
    dies of the uncaught exception [e]. *)
Definition main : M unit :=
  (fun w => (Ok tt, set_merged_proxies (fun _ => []) w)) ;;
  process_urls (Paths URL_FILE_OR_FILES) process_clash ;;
  merged <- (fun w => (Ok (merged_proxies w), w)) ;;
  save_yaml MERGED_PROXIES_FILE merged ;;
  logging INFO AggregationCompleted ;;
  loaded <- load_yaml MERGED_PROXIES_FILE ;;
  proxies <- lift (py_get loaded "proxies" (VList [])) ;;
  if truthy proxies then
    available_proxies <- check_proxies_availability proxies 5 ;;
    save_yaml MERGED_PROXIES_FILE available_proxies ;;
    logging INFO (AvailableProxiesSaved MERGED_PROXIES_FILE)
  else
    logging WARNING NoProxiesToCheck.

End Collector.

(** ** The vocabulary of the properties *)

(** The sample an attempt contributes: its duration in milliseconds, as
    line 98 computes it, when the connection succeeded, nothing otherwise. *)
Definition sample (o : connect_outcome) : option float :=
  match o with
  | Returned start_time end_time 0 => Some ((end_time - start_time) * 1000)%float
  | Returned _ _ _ | Raised _ => None
  end.

(** The outcomes of [n] attempts at [c] in a row, the first of them made
    after [k0] earlier attempts. *)
Definition outcomes (env : Env) (k0 n : nat) (c : connect_call) : list connect_outcome :=
  (fun k => connect env (k0 + k) c) <$> seq 0 n.

(** The sum of the values of the samples, and their arithmetic mean: the
    rational that, taken as many times as there are samples, makes the
    sum. *)
Definition total (samples : list float) : Q := foldr Qplus 0%Q (PyFloat.value <$> samples).

Definition is_mean (mean : Q) (samples : list float) : Prop :=
  (mean * inject_Z (Z.of_nat (length samples)) == total samples)%Q.

(** A type that is not in the skip-set: no string that lowercases into
    it. *)
Definition outside_skip_set (proto : pyval) : Prop :=
  ∀ s, proto = VStr s → PyStr.lower s ∉ skip_protocols.

(** What the probe of nodes leaves as it was: the aggregated list, the
    disk and the writes. *)
Definition same_store (w w' : World) : Prop :=
  merged_proxies w' = merged_proxies w ∧ disk w' = disk w ∧ writes w' = writes w.

(** A value that is a mapping, as a ProxyNode is. *)
Definition is_mapping (v : pyval) : Prop := ∃ d, v = VDict d.

(** The rule of the Filter: a reachable node whose latency lies in the
    window, both ends included. *)
Definition in_window (r : result (bool * option Q)) : bool :=
  match r with
  | Ok (true, Some latencyMs) =>
      Qle_bool (inject_Z MIN_LATENCY_THRESHOLD) latencyMs
      && Qle_bool latencyMs (inject_Z LATENCY_THRESHOLD)
  | _ => false
  end.

(** The futures whose node the Filter keeps, in the order of [futures]. *)
Definition survivors (futures : list probe_future) : list pyval :=
  snd <$> filter (fun fp => in_window (fst fp)) futures.

(** What the aggregation of the sources leaves as it was: the connect
    attempts, the disk and the writes. *)
Definition same_files (w w' : World) : Prop :=
  attempts w' = attempts w ∧ disk w' = disk w ∧ writes w' = writes w.

(** The URL of a log record of [fetch_and_process_url] that announces a
    fetch, and the URLs passed to the Fetcher so far, in the order of the
    log. *)
Definition fetching (entry : level * log_msg) : option string :=
  match snd entry with
  | FetchingURL url => Some url
  | _ => None
  end.

Definition fetched_urls (w : World) : list string := omap fetching (log w).

(** A step of the aggregation from [w] to [w']: it appends [nodes] to
    [merged_proxies], fetches [urls], and leaves the rest as it was. *)
Definition aggregates (w w' : World) (nodes : list pyval) (urls : list string) : Prop :=
  merged_proxies w' = merged_proxies w ++ nodes
  ∧ fetched_urls w' = fetched_urls w ++ urls
  ∧ same_files w w'.

(** The nodes the source of this index yields: the items of the value at
    the key "proxies" of its document, and nothing when the fetch or the
    decoding fails. *)
Definition extracted (env : Env) (index : nat) (url : string) : list pyval :=
  match http_get env index url with
  | Body data =>
      match safe_load env data with
      | Ok (VDict d) =>
          match py_iter (default (VList []) (assoc "proxies" d)) with
          | Ok items => items
          | Raise _ => []
          end
      | _ => []
      end
  | FetchFails _ => []
  end.

(** The nodes of the source at position [i] of [urls]. *)
Definition source_nodes (env : Env) (urls : list string) (i : nat) : list pyval :=
  match urls !! i with
  | Some url => extracted env i url
  | None => []
  end.

(** A blank line holds nothing but whitespace. *)
Definition blank (line : string) : bool :=
  forallb PyStr.isspace (list_ascii_of_string line).

(** A line of a source list that is no URL: a blank line, or a line that
    begins with the comment sign. *)
Definition ignored (line : string) : bool :=
  blank line || PyStr.startswith line "#".

(** A line that holds a URL: it is not blank, and what is left of it
    without the whitespace around does not begin with the comment sign. *)
Definition holds_url (line : string) : bool :=
  negb (blank line) && negb (PyStr.startswith (PyStr.strip line) "#").

(** A listed file that exists and fails to open or read. *)
Definition unreadable (env : Env) (url_file : string) : Prop :=
  ∃ e, url_list env url_file = Unreadable e.

(** The paths of the argument of [process_urls]. *)
Definition paths (url_files : url_files_arg) : list string :=
  match url_files with OnePath p => [p] | Paths ps => ps end.

(** A file that is absent, or that opens and reads. *)
Definition readable (env : Env) (url_file : string) : Prop :=
  ∀ e, url_list env url_file ≠ Unreadable e.

(** The lines of the files that exist, in the order of the files. *)
Definition source_lines (env : Env) (url_files : list string) : list string :=
  concat ((fun url_file => match url_list env url_file with
                           | Lines ls => ls
                           | Missing | Unreadable _ => []
                           end) <$> url_files).

(** What a write of the output file leaves in the log, and on the disk. *)
Definition write_error (path : string) (o : write_outcome) : list (level * log_msg) :=
  match o with
  | Written => []
  | OpenFails e | DumpFails e _ => [(ERROR, ErrorSavingYAML path e)]
  end.

Definition disk_after (env : Env) (path : string) (data : list pyval) (o : write_outcome)
    (d : gmap string (result pyval)) : gmap string (result pyval) :=
  match o with
  | Written => <[path := dumped_document env data]> d
  | OpenFails _ => d
  | DumpFails _ doc => <[path := doc]> d
  end.

(** The nodes read back one for one as [nodes'], each as the environment
    says. *)
Definition read_back (env : Env) (nodes nodes' : list pyval) : Prop :=
  Forall2 (fun proxy proxy' => dump_load env proxy = Ok proxy') nodes nodes'.

(** Some write of the output file made between [w] and [w'] failed. *)
Definition write_failed (env : Env) (w w' : World) : Prop :=
  ∃ k, (length (writes w) ≤ k < length (writes w'))%nat ∧ write env k ≠ Written.

(** ** Worlds and environments of the examples *)

Definition world0 : World :=
  {| attempts := []; log := []; merged_proxies := []; disk := ∅; writes := [] |}.

(** An entry of a Clash configuration. *)
Definition node (name server : string) (port : pyval) (type : string) : pyval :=
  VDict [("name", VStr name); ("server", VStr server); ("port", port);
         ("type", VStr type); ("cipher", VStr "aes-128-gcm")].

Definition in_order (n : nat) : list nat := seq 0 n.
Definition last_first (n : nat) : list nat := rev (seq 0 n).

(** A network on which the first attempt connects in 5 ms, the second in
    7 ms, the third is refused and the later ones raise. *)
Definition mixed_network (k : nat) (c : connect_call) : connect_outcome :=
  match k with
  | 0%nat => Returned 100 100.005 0
  | 1%nat => Returned 101 101.007 0
  | 2%nat => Returned 102 102.001 111
  | _ => Raised OSError
  end.

Definition env_mixed : Env :=
  {| url_list := fun _ => Missing;
     http_get := fun _ _ => FetchFails RequestException;
     safe_load := fun _ => Raise YAMLError;
     fetch_order := in_order;
     connect := mixed_network;
     probe_order := in_order;
     write := fun _ => Written;
     dump_load := Ok |}.

(** A network on which the three attempts connect, in 5 ms, 7 ms and
    7 ms. *)
Definition uneven_network (k : nat) (c : connect_call) : connect_outcome :=
  match k with
  | 0%nat => Returned 100 100.005 0
  | 1%nat => Returned 101 101.007 0
  | _ => Returned 102 102.007 0
  end.

Definition env_uneven : Env :=
  {| url_list := fun _ => Missing;
     http_get := fun _ _ => FetchFails RequestException;
     safe_load := fun _ => Raise YAMLError;
     fetch_order := in_order;
     connect := uneven_network;
     probe_order := in_order;
     write := fun _ => Written;
     dump_load := Ok |}.

(** A network on which every attempt connects in 5 ms; the probe futures
    complete last submitted first. *)
Definition env_lifo : Env :=
  {| url_list := fun _ => Missing;
     http_get := fun _ _ => FetchFails RequestException;
     safe_load := fun _ => Raise YAMLError;
     fetch_order := in_order;
     connect := fun _ _ => Returned 100 100.005 0;
     probe_order := last_first;
     write := fun _ => Written;
     dump_load := Ok |}.

Definition node_a : pyval := node "a" "10.0.0.1" (VInt 443) "vmess".
Definition node_b : pyval := node "b" "10.0.0.2" (VStr "8443") "trojan".
Definition node_c : pyval := node "c" "10.0.0.3" (VInt 80) "ss".
Definition node_d : pyval := node "d" "10.0.0.4" (VInt 8080) "ss".

(** Four probed nodes: at 1 ms, unreachable, at 30 ms, at 30.1 ms. *)
Definition probed_nodes : list probe_future :=
  [(Ok (true, Some 1%Q), node_a); (Ok (false, None), node_b);
   (Ok (true, Some 30%Q), node_c); (Ok (true, Some (301 / 10)%Q), node_d)].

(** A node whose port does not parse as an integer. *)
Definition node_bad_port : pyval := node "n" "example.com" (VStr "abc") "ss".

(** One URL list with one source, which publishes a sound node and one
    with an unparseable port. *)
Definition env_bad_port : Env :=
  {| url_list := fun p => if String.eqb p "./urls/clash.txt"
                          then Lines ["https://example.org/sub"] else Missing;
     http_get := fun _ _ => Body "proxies: ...";
     safe_load := fun _ => Ok (VDict [("proxies", VList [node_a; node_bad_port])]);
     fetch_order := in_order;
     connect := fun _ _ => Returned 100 100.005 0;
     probe_order := in_order;
     write := fun _ => Written;
     dump_load := Ok |}.

(** Three sources, the second of them down; the first publishes two nodes
    and the third one node.  The fetch tasks complete last submitted
    first. *)
Definition three_sources : list string :=
  ["https://one.example/sub"; "https://down.example/sub"; "https://two.example/sub"].

Definition env_three_sources : Env :=
  {| url_list := fun p => if String.eqb p "./urls/clash.txt"
                          then Lines three_sources else Missing;
     http_get := fun _ url => if String.eqb url "https://down.example/sub"
                              then FetchFails RequestException else Body url;
     safe_load := fun data =>
       if String.eqb data "https://one.example/sub"
       then Ok (VDict [("proxies", VList [node_a; node_b])])
       else if String.eqb data "https://two.example/sub"
       then Ok (VDict [("proxies", VList [node_c])])
       else Raise YAMLError;
     fetch_order := last_first;
     connect := fun _ _ => Returned 100 100.005 0;
     probe_order := in_order;
     write := fun _ => Written;
     dump_load := Ok |}.

(** A source list with comments, blank lines and padded URLs. *)
Definition commented_list : list string :=
  ["# subscriptions"; EmptyString; "  https://one.example/sub  ";
   "#https://down.example/sub"; "   "; "https://two.example/sub"].

Definition env_commented : Env :=
  {| url_list := fun p => if String.eqb p "./urls/clash.txt"
                          then Lines commented_list else Missing;
     http_get := http_get env_three_sources;
     safe_load := safe_load env_three_sources;
     fetch_order := last_first;
     connect := connect env_three_sources;
     probe_order := in_order;
     write := fun _ => Written;
     dump_load := Ok |}.

(** The three sources again, completing in order; the node on port 80 is
    refused; the first write of the output file succeeds and the later
    ones fail at [open]. *)
Definition env_write_fails : Env :=
  {| url_list := url_list env_three_sources;
     http_get := http_get env_three_sources;
     safe_load := safe_load env_three_sources;
     fetch_order := in_order;
     connect := fun _ c => if cc_port c =? 80
                           then Returned 100 100.001 111
                           else Returned 100 100.005 0;
     probe_order := in_order;
     write := fun k => match k with 0%nat => Written | _ => OpenFails OSError end;
     dump_load := Ok |}.

(** A source list whose first line is a comment after two spaces. *)
Definition indented_list : list string :=
  ["  # note"; "https://one.example/sub"].

Definition env_indented : Env :=
  {| url_list := fun p => if String.eqb p "./urls/clash.txt"
                          then Lines indented_list else Missing;
     http_get := http_get env_three_sources;
     safe_load := safe_load env_three_sources;
     fetch_order := in_order;
     connect := connect env_three_sources;
     probe_order := in_order;
     write := fun _ => Written;
     dump_load := Ok |}.

(** Two source lists, the second of which fails to read. *)
Definition env_unreadable : Env :=
  {| url_list := fun p => if String.eqb p "./urls/clash.txt"
                          then Lines three_sources else Unreadable OSError;
     http_get := http_get env_three_sources;
     safe_load := safe_load env_three_sources;
     fetch_order := in_order;
     connect := connect env_three_sources;
     probe_order := in_order;
     write := fun _ => Written;
     dump_load := Ok |}.

(** The character NEL (U+0085), which YAML takes for a line break, and a
    node with a remark that holds one. *)
Definition NEL : ascii := ascii_of_N 133.

Definition node_remark (remark : string) : pyval :=
  VDict [("name", VStr "r"); ("server", VStr "10.0.0.1"); ("port", VInt 443);
         ("type", VStr "ss"); ("remark", VStr remark)].

Definition node_nel : pyval := node_remark (String "a" (String NEL "b")).

(** The remark is written between single quotes with the NEL as it is,
    and the reader folds that line break into a space; the other values of
    the example read back as they were written. *)
Definition folded (v : pyval) : pyval :=
  match v with
  | VStr s => if String.eqb s (String "a" (String NEL "b")) then VStr "a b" else v
  | _ => v
  end.

Definition fold_node (proxy : pyval) : result pyval :=
  match proxy with
  | VDict d => Ok (VDict ((fun kv => (fst kv, folded (snd kv))) <$> d))
  | _ => Ok proxy
  end.

(** One source, which publishes the node with the NEL; every attempt
    connects in 5 ms and every write succeeds. *)
Definition env_nel : Env :=
  {| url_list := fun p => if String.eqb p "./urls/clash.txt"
                          then Lines ["https://one.example/sub"] else Missing;
     http_get := fun _ _ => Body "proxies: ...";
     safe_load := fun _ => Ok (VDict [("proxies", VList [node_nel])]);
     fetch_order := in_order;
     connect := fun _ _ => Returned 100 100.005 0;
     probe_order := in_order;
     write := fun _ => Written;
     dump_load := fold_node |}.

(** ** The vocabulary of the further properties *)

(** The test of line 126: the node is a mapping with a truthy server and a
    truthy port. *)
Definition has_endpoint (proxy : pyval) : bool :=
  match proxy with
  | VDict d =>
      truthy (default VNone (assoc "server" d)) && truthy (default VNone (assoc "port" d))
  | _ => false
  end.

(** A node the comprehension of lines 117 to 127 gets past: a mapping that
    is left out, or one whose port [int] accepts. *)
Definition submittable (proxy : pyval) : bool :=
  match proxy with
  | VDict d =>
      if has_endpoint proxy then
        match py_int (default VNone (assoc "port" d)) with
        | Ok _ => true
        | Raise _ => false
        end
      else true
  | _ => false
  end.

(** The address the probe of a node connects to: that of a node with an
    endpoint, a port that parses and a type that is a string outside the
    skip-set ("tcp" when the node has no type). *)
Definition probe_target (timeout : Q) (proxy : pyval) : option connect_call :=
  match proxy with
  | VDict d =>
      if has_endpoint proxy then
        match py_int (default VNone (assoc "port" d)),
              default (VStr "tcp") (assoc "type" d) with
        | Ok port, VStr proto =>
            if bool_decide (PyStr.lower proto ∈ skip_protocols) then None
            else Some (ConnectCall (default VNone (assoc "server" d)) port timeout)
        | _, _ => None
        end
      else None
  | _ => None
  end.

(** The connect attempts the probe of a node makes. *)
Definition probe_calls (timeout : Q) (proxy : pyval) : list connect_call :=
  match probe_target timeout proxy with
  | Some c => replicate 3 c
  | None => []
  end.

(** A log record above the level INFO, and their number in the log. *)
Definition is_report (entry : level * log_msg) : bool :=
  match fst entry with
  | INFO => false
  | WARNING | ERROR => true
  end.

Definition reports (w : World) : nat := length (filter (fun entry => is_report entry) (log w)).

(** A source that yields no node. *)
Definition barren (env : Env) (index : nat) (url : string) : bool :=
  match extracted env index url with
  | [] => true
  | _ :: _ => false
  end.

(** The source at position [i] of [urls] yields no node. *)
Definition barren_at (env : Env) (urls : list string) (i : nat) : bool :=
  match urls !! i with
  | Some url => barren env i url
  | None => false
  end.

(** The number of sources of [urls], taken in the order [order], that yield
    no node. *)
Definition barren_sources (env : Env) (urls : list string) (order : list nat) : nat :=
  length (filter (fun i => barren_at env urls i) order).

(** The futures that hold an exception, and their number. *)
Definition is_raise {A} (future : result A) : bool :=
  match future with
  | Ok _ => false
  | Raise _ => true
  end.

Definition raised {A} (futures : list (result A)) : nat :=
  length (filter (fun future => is_raise future) futures).

(** Lines 175 to 181 of [main]: the file is loaded, its proxies are
    checked and the file is written again. *)
Definition check_saved_proxies (env : Env) : M unit :=
  (loaded <- load_yaml MERGED_PROXIES_FILE ;;
   proxies <- lift (py_get loaded "proxies" (VList [])) ;;
   if truthy proxies then
     available_proxies <- check_proxies_availability env proxies 5 ;;
     save_yaml env MERGED_PROXIES_FILE available_proxies ;;
     logging INFO (AvailableProxiesSaved MERGED_PROXIES_FILE)
   else
     logging WARNING NoProxiesToCheck)%py.

(** ** More nodes for the examples *)

Definition node_wg : pyval := node "wg" "10.0.0.9" (VInt 51820) "WireGuard".

(** A node without a port, a node whose type is a number, and a node
    without a type. *)
Definition node_no_port : pyval :=
  VDict [("name", VStr "np"); ("server", VStr "10.0.0.5")].

Definition node_odd_type : pyval :=
  VDict [("name", VStr "odd"); ("server", VStr "10.0.0.6"); ("port", VInt 80);
         ("type", VInt 7)].

Definition node_untyped : pyval :=
  VDict [("name", VStr "plain"); ("server", VStr "10.0.0.8"); ("port", VStr "8080")].

Definition assorted_nodes : list pyval :=
  [node_a; node_wg; node_no_port; node_odd_type; node_untyped].

(** The three sources, with an output file that cannot be opened for
    writing. *)
Definition env_no_directory : Env :=
  {| url_list := url_list env_three_sources;
     http_get := http_get env_three_sources;
     safe_load := safe_load env_three_sources;
     fetch_order := in_order;
     connect := connect env_three_sources;
     probe_order := in_order;
     write := fun _ => OpenFails OSError;
     dump_load := Ok |}.

(** The three sources, with an output file left empty by a dump that
    fails. *)
Definition env_disk_full : Env :=
  {| url_list := url_list env_three_sources;
     http_get := http_get env_three_sources;
     safe_load := safe_load env_three_sources;
     fetch_order := in_order;
     connect := connect env_three_sources;
     probe_order := in_order;
     write := fun _ => DumpFails OSError (Ok VNone);
     dump_load := Ok |}.

(** A world whose output file is left from an earlier run. *)
Definition world_stale : World :=
  {| attempts := []; log := []; merged_proxies := [];
     disk := {[ MERGED_PROXIES_FILE := Ok (VDict [("proxies", VList [node_d])]) ]};
     writes := [] |}.

(** ** The prober

    [run] unfolds the monad on the programs at hand. *)
Ltac run := repeat (progress (unfold bind, ret, raise, lift, try_except, try_except_only,
                       run_task, future_result, logging in *; cbn [fst snd] in * )).

Section Prober.
Context (env : Env).

Lemma attempt_once_run server port timeout latencies w :
  let c := ConnectCall server port timeout in
  ∃ w',
    attempt_once env server port timeout latencies w
    = (Ok (latencies ++ option_list (sample (connect env (length (attempts w)) c))), w')
    ∧ attempts w' = attempts w ++ [c] ∧ same_store w w'.
Proof.
  intros c. unfold attempt_once, connect_attempt, same_store. run. fold c.
  destruct (connect env (length (attempts w)) c) as [s e [|p|p]|ex]; cbn;
    rewrite ?app_nil_r; eauto 10.
Qed.

Lemma outcomes_S k0 n c :
  outcomes env k0 (S n) c = connect env k0 c :: outcomes env (k0 + 1) n c.
Proof.
  unfold outcomes. cbn [seq fmap list_fmap]. rewrite Nat.add_0_r. f_equal.
  rewrite <- fmap_S_seq, <- list_fmap_compose.
  apply list_fmap_ext. intros _ k _. cbn. f_equal. lia.
Qed.

Lemma attempts_loop server port timeout (ks : list nat) latencies w :
  let c := ConnectCall server port timeout in
  ∃ w',
    for_each ks (fun _ => attempt_once env server port timeout) latencies w
    = (Ok (latencies ++ omap sample (outcomes env (length (attempts w)) (length ks) c)), w')
    ∧ attempts w' = attempts w ++ replicate (length ks) c ∧ same_store w w'.
Proof.
  intros c. revert latencies w.
  induction ks as [|k ks IH]; intros latencies w.
  - exists w. cbn. rewrite !app_nil_r. done.
  - cbn [for_each length]. rewrite outcomes_S.
    destruct (attempt_once_run server port timeout latencies w) as (w1 & Hrun & Hatt & Hs1).
    fold c in Hrun, Hatt. unfold bind at 1. rewrite Hrun.
    destruct (IH (latencies ++ option_list (sample (connect env (length (attempts w)) c))) w1)
      as (w2 & Hloop & Hatt2 & Hs2).
    exists w2. rewrite Hloop, Hatt2, Hatt, length_app. cbn [length replicate].
    unfold same_store in *.
    split; [|split; [by rewrite <- app_assoc|intuition congruence]].
    do 2 f_equal. rewrite <- app_assoc. f_equal.
    cbn [omap list_omap]. by destruct (sample (connect env (length (attempts w)) c)).
Qed.


Lemma lower_skip_protocols proto :
  proto ∈ skip_protocols → PyStr.lower proto = proto.
Proof.
  unfold skip_protocols. rewrite !elem_of_union, !elem_of_singleton.
  intros H; repeat destruct H as [H| ->]; try subst proto; reflexivity.
Qed.

Lemma tcp_connection_test_skip server port proto timeout w :
  PyStr.lower proto ∈ skip_protocols →
  tcp_connection_test env server port (VStr proto) timeout w
  = (Ok (false, None), set_log (fun ls => ls ++ [(INFO, SkippedProtocol (VStr proto))]) w).
Proof.
  intros Hin. unfold tcp_connection_test. run. cbn [py_lower].
  by rewrite bool_decide_true.
Qed.

Lemma tcp_connection_test_probe server port proto timeout w :
  PyStr.lower proto ∉ skip_protocols →
  let c := ConnectCall server port timeout in
  let latencies := omap sample (outcomes env (length (attempts w)) 3 c) in
  ∃ w',
    tcp_connection_test env server port (VStr proto) timeout w
    = (Ok (match latencies with
           | [] => (false, None)
           | _ :: _ =>
               (true, Some (PyFloat.value (py_sum latencies / py_len latencies)))
           end), w')
    ∧ attempts w' = attempts w ++ replicate 3 c ∧ same_store w w'.
Proof.
  intros Hnot c latencies. unfold tcp_connection_test.
  unfold bind at 1, lift at 1. cbn [py_lower].
  rewrite bool_decide_false by done.
  destruct (attempts_loop server port timeout (seq 0 3) [] w) as (w' & Hloop & Hatt & Hs).
  exists w'. split; [|done].
  unfold try_except, bind at 1. rewrite Hloop. cbn [length seq app].
  fold c latencies. by destruct latencies.
Qed.




Lemma tcp_connection_test_not_str server port proto timeout w :
  (∀ s, proto ≠ VStr s) →
  tcp_connection_test env server port proto timeout w = (Raise AttributeError, w).
Proof. intros Hs. destruct proto; try done. by destruct (Hs s). Qed.

End Prober.


(** C1, as the code has it: a node whose type is a string that does not
    lowercase into the skip-set gets exactly three connect attempts at
    (server, port), each under the timeout; when at least one connects the
    result is reachable, and its latency is the sum of the successful
    attempts' durations divided by their number as line 104 computes them
    on doubles, the additions and the division each rounded; otherwise it
    is unreachable, with no latency. *)
Theorem tcp_connection_test_three_attempts (env : Env) server port proto timeout w :
  PyStr.lower proto ∉ skip_protocols →
  let c := ConnectCall server port timeout in
  let samples := omap sample (outcomes env (length (attempts w)) 3 c) in
  ∃ reachable latencyMs w',
    tcp_connection_test env server port (VStr proto) timeout w
    = (Ok (reachable, latencyMs), w')
    ∧ attempts w' = attempts w ++ [c; c; c]
    ∧ (samples = [] → reachable = false ∧ latencyMs = None)
    ∧ (samples ≠ [] →
       reachable = true
       ∧ latencyMs = Some (PyFloat.value (py_sum samples / py_len samples))).
Proof.
  intros Hnot c samples.
  destruct (tcp_connection_test_probe env server port proto timeout w Hnot)
    as (w' & Hrun & Hatt & _).
  fold c samples in Hrun. cbn [replicate] in Hatt.
  destruct samples as [|l ls] eqn:Hs.
  - exists false, None, w'. by repeat split.
  - exists true, (Some (PyFloat.value (py_sum (l :: ls) / py_len (l :: ls)))), w'.
    by repeat split.
Qed.

Lemma tcp_connection_test_three_attempts_witness :
  ∃ reachable latencyMs w',
    tcp_connection_test env_mixed (VStr "10.0.0.7") 443 (VStr "vmess") 5 world0
    = (Ok (reachable, latencyMs), w')
    ∧ attempts w' = [ConnectCall (VStr "10.0.0.7") 443 5; ConnectCall (VStr "10.0.0.7") 443 5;
                     ConnectCall (VStr "10.0.0.7") 443 5]
    ∧ reachable = true
    ∧ latencyMs = Some (PyFloat.value 6.000000000000227).
Proof.
  destruct (tcp_connection_test_three_attempts env_mixed (VStr "10.0.0.7") 443 "vmess" 5 world0)
    as (reachable & latencyMs & w' & Hrun & Hatt & _ & Hsome).
  { apply (bool_decide_unpack _). vm_compute. exact I. }
  exists reachable, latencyMs, w'. split; [exact Hrun|]. split; [exact Hatt|].
  destruct Hsome as (Hr & Hl); [by vm_compute|].
  split; [exact Hr|]. rewrite Hl. vm_compute. reflexivity.
Defined.

(** C1, as the claim states it, fails twice.  On three attempts that
    connect in 5 ms, 7 ms and 7 ms the latency returned is a double, and
    three times its value is not the sum of the three durations: it is not
    their arithmetic mean.  And a type that is no string, such as the
    number 7, is not in the skip-set, yet the prober raises an
    [AttributeError] on it without any attempt. *)
Lemma prober_claim_fails :
  ¬ (∀ (env : Env) server port (proto : string) timeout w,
       PyStr.lower proto ∉ skip_protocols →
       let c := ConnectCall server port timeout in
       let samples := omap sample (outcomes env (length (attempts w)) 3 c) in
       ∃ reachable latencyMs w',
         tcp_connection_test env server port (VStr proto) timeout w
         = (Ok (reachable, latencyMs), w')
         ∧ attempts w' = attempts w ++ [c; c; c]
         ∧ (samples = [] → reachable = false ∧ latencyMs = None)
         ∧ (samples ≠ [] →
            reachable = true ∧ ∃ mean, latencyMs = Some mean ∧ is_mean mean samples))
  ∧ ¬ (∀ (env : Env) server port (proto : pyval) timeout w,
         outside_skip_set proto →
         let c := ConnectCall server port timeout in
         ∃ reachable latencyMs w',
           tcp_connection_test env server port proto timeout w
           = (Ok (reachable, latencyMs), w')
           ∧ attempts w' = attempts w ++ [c; c; c]).
Proof.
  split.
  - intros Hmean.
    destruct (Hmean env_uneven (VStr "10.0.0.7") 443 "vmess" 5%Q world0)
      as (reachable & latencyMs & w' & Hrun & _ & _ & Hsome).
    { apply (bool_decide_unpack _). vm_compute. exact I. }
    destruct Hsome as (_ & mean & Hl & Hm); [by vm_compute|].
    assert (latencyMs = Some (PyFloat.value 6.333333333335152)) as Hl'.
    { assert (fst (tcp_connection_test env_uneven (VStr "10.0.0.7") 443 (VStr "vmess") 5 world0)
              = Ok (true, Some (PyFloat.value 6.333333333335152))) as Hc
        by (vm_compute; reflexivity).
      rewrite Hrun in Hc. cbn [fst] in Hc. by injection Hc as _ ->. }
    rewrite Hl' in Hl. injection Hl as <-.
    unfold is_mean in Hm. vm_compute in Hm. discriminate Hm.
  - intros Hany.
    destruct (Hany env_mixed (VStr "10.0.0.7") 443 (VInt 7) 5%Q world0)
      as (reachable & latencyMs & w' & Hrun & _).
    { intros s Hs. discriminate Hs. }
    vm_compute in Hrun. discriminate Hrun.
Qed.

(** C3: a node whose type is one of the six tags of the skip-set, such as
    wireguard, is never the target of a connect attempt, and the prober
    answers unreachable, without latency. *)
Theorem skip_set_never_probed (env : Env) server port proto timeout w :
  proto ∈ skip_protocols →
  ∃ w',
    tcp_connection_test env server port (VStr proto) timeout w = (Ok (false, None), w')
    ∧ attempts w' = attempts w.
Proof.
  intros Hin. eexists. split.
  - apply tcp_connection_test_skip. by rewrite lower_skip_protocols.
  - done.
Qed.

Lemma skip_set_never_probed_witness :
  ∃ w',
    tcp_connection_test env_mixed (VStr "10.0.0.7") 51820 (VStr "wireguard") 5 world0
    = (Ok (false, None), w')
    ∧ attempts w' = [].
Proof.
  apply (skip_set_never_probed env_mixed (VStr "10.0.0.7") 51820 "wireguard" 5 world0).
  compute_done.
Defined.

(** C10: the tag is matched in lower case: a type that lowercases to a tag
    of the skip-set, such as WireGuard or HYSTERIA2, gets no connect attempt
    and the answer unreachable, without latency, just as its lowercase
    spelling does. *)
Theorem skip_set_case_insensitive (env : Env) server port proto timeout w :
  PyStr.lower proto ∈ skip_protocols →
  ∃ w' w'',
    tcp_connection_test env server port (VStr proto) timeout w = (Ok (false, None), w')
    ∧ attempts w' = attempts w
    ∧ tcp_connection_test env server port (VStr (PyStr.lower proto)) timeout w
      = (Ok (false, None), w'')
    ∧ attempts w'' = attempts w.
Proof.
  intros Hin. do 2 eexists. split; [|split; [|split]].
  - by apply tcp_connection_test_skip.
  - done.
  - apply tcp_connection_test_skip. by rewrite (lower_skip_protocols _ Hin).
  - done.
Qed.

Lemma skip_set_case_insensitive_witness :
  (∃ w' w'',
     tcp_connection_test env_mixed (VStr "10.0.0.7") 51820 (VStr "WireGuard") 5 world0
     = (Ok (false, None), w')
     ∧ attempts w' = []
     ∧ tcp_connection_test env_mixed (VStr "10.0.0.7") 51820 (VStr "wireguard") 5 world0
       = (Ok (false, None), w'')
     ∧ attempts w'' = [])
  ∧ (∃ w' w'',
     tcp_connection_test env_mixed (VStr "10.0.0.8") 443 (VStr "HYSTERIA2") 5 world0
     = (Ok (false, None), w')
     ∧ attempts w' = []
     ∧ tcp_connection_test env_mixed (VStr "10.0.0.8") 443 (VStr "hysteria2") 5 world0
       = (Ok (false, None), w'')
     ∧ attempts w'' = []).
Proof.
  split.
  - apply (skip_set_case_insensitive env_mixed (VStr "10.0.0.7") 51820 "WireGuard" 5 world0).
    compute_done.
  - apply (skip_set_case_insensitive env_mixed (VStr "10.0.0.8") 443 "HYSTERIA2" 5 world0).
    compute_done.
Defined.

(** ** The probe of the nodes and the Filter *)

Section Filter.
Context (env : Env).

Lemma available_in_range_window is_available latency :
  match available_in_range is_available latency with
  | Ok b => b
  | Raise _ => false
  end = in_window (Ok (is_available, latency)).
Proof.
  destruct is_available, latency as [l|]; cbn; try done.
  apply andb_comm.
Qed.

Lemma collect_one_run future proxy available w :
  is_mapping proxy →
  ∃ w',
    collect_one (future, proxy) available w
    = (Ok (available ++ (if in_window future then [proxy] else [])), w')
    ∧ attempts w' = attempts w ∧ same_store w w'.
Proof.
  intros [d ->]. unfold collect_one, same_store. run. cbn [py_get].
  destruct future as [[is_available latency]|e]; [|rewrite app_nil_r; eauto 10].
  pose proof (available_in_range_window is_available latency) as Hw.
  destruct (available_in_range is_available latency) as [[]|e];
    rewrite <- Hw; rewrite ?app_nil_r; eauto 10.
Qed.

Lemma collect_loop (fps : list probe_future) available w :
  Forall (fun fp => is_mapping (snd fp)) fps →
  ∃ w',
    for_each fps collect_one available w = (Ok (available ++ survivors fps), w')
    ∧ attempts w' = attempts w ∧ same_store w w'.
Proof.
  intros Hmap. revert available w.
  induction Hmap as [|[future proxy] fps Hp _ IH]; intros available w.
  - exists w. cbn. by rewrite app_nil_r.
  - cbn [for_each]. destruct (collect_one_run future proxy available w Hp)
      as (w1 & Hrun & Hatt & Hs).
    unfold bind at 1. rewrite Hrun.
    destruct (IH (available ++ (if in_window future then [proxy] else [])) w1)
      as (w2 & Hloop & Hatt2 & Hs2).
    exists w2. rewrite Hloop. unfold same_store in *.
    split; [|split; [congruence|intuition congruence]].
    do 2 f_equal. rewrite <- app_assoc. f_equal.
    unfold survivors. rewrite filter_cons. cbn [fst].
    by destruct (in_window future); case_decide.
Qed.


Lemma omap_after_fmap {A B C} (f : B → option C) (g : A → B) (l : list A) :
  omap f (g <$> l) = omap (fun x => f (g x)) l.
Proof. induction l as [|x l IH]; [done|]. cbn. by rewrite IH. Qed.

Lemma omap_lookup_seq {A} (l : list A) :
  omap (fun i => l !! i) (seq 0 (length l)) = l.
Proof.
  induction l as [|x l IH]; [done|].
  cbn [length seq omap list_omap lookup list_lookup]. f_equal.
  rewrite <- fmap_S_seq, omap_after_fmap. exact IH.
Qed.

Lemma as_completed_in_order {A} order (futures : list A) :
  order (length futures) = seq 0 (length futures) →
  as_completed order futures = futures.
Proof. unfold as_completed. intros ->. apply omap_lookup_seq. Qed.

Lemma as_completed_perm {A} order (futures : list A) :
  order (length futures) ≡ₚ seq 0 (length futures) →
  as_completed order futures ≡ₚ futures.
Proof.
  unfold as_completed. intros ->. by rewrite omap_lookup_seq.
Qed.

Lemma as_completed_elem {A} order (futures : list A) x :
  x ∈ as_completed order futures → x ∈ futures.
Proof.
  unfold as_completed. rewrite list_elem_of_omap.
  intros (i & _ & Hi). by eapply list_elem_of_lookup_2.
Qed.

Lemma survivors_perm fps fps' : fps ≡ₚ fps' → survivors fps ≡ₚ survivors fps'.
Proof. unfold survivors. by intros ->. Qed.

Lemma collect_available_run futures w :
  Forall (fun fp => is_mapping (snd fp)) futures →
  ∃ w',
    collect_available env futures w
    = (Ok (survivors (as_completed (probe_order env) futures)), w')
    ∧ attempts w' = attempts w ∧ same_store w w'.
Proof.
  intros Hmap. unfold collect_available.
  apply (collect_loop (as_completed (probe_order env) futures) [] w).
  rewrite Forall_forall in *. intros fp Hfp. eauto using as_completed_elem.
Qed.


Lemma same_store_refl w : same_store w w.
Proof. by unfold same_store. Qed.

Lemma same_store_trans w1 w2 w3 :
  same_store w1 w2 → same_store w2 w3 → same_store w1 w3.
Proof. unfold same_store. intuition congruence. Qed.

Lemma tcp_connection_test_store server port proto timeout w :
  same_store w (snd (tcp_connection_test env server port proto timeout w)).
Proof.
  destruct proto as [| | | |proto| |]; try apply same_store_refl.
  destruct (decide (PyStr.lower proto ∈ skip_protocols)) as [Hin|Hnot].
  - rewrite tcp_connection_test_skip by done. by unfold same_store.
  - destruct (tcp_connection_test_probe env server port proto timeout w Hnot)
      as (w' & -> & _ & Hs). exact Hs.
Qed.

(** A node without a server or without a port, or with a falsy one, is
    left out before anything is submitted for it. *)
Lemma missing_fields_not_submitted timeout d futures w :
  truthy (default VNone (assoc "server" d)) = false
  ∨ truthy (default VNone (assoc "port" d)) = false →
  submit_one env timeout (VDict d) futures w = (Ok futures, w).
Proof.
  intros H. unfold submit_one. run. cbn [py_get].
  destruct (truthy (default VNone (assoc "server" d))); [|done].
  destruct H as [H|H]; [done|]. by rewrite H.
Qed.

Lemma submit_one_cases timeout proxy futures w :
  ∃ r w',
    submit_one env timeout proxy futures w = (r, w') ∧ same_store w w'
    ∧ match r with
      | Ok futures' =>
          futures' = futures ∧ w' = w
          ∨ ∃ future, futures' = futures ++ [(future, proxy)] ∧ is_mapping proxy
      | Raise _ => w' = w
      end.
Proof.
  unfold submit_one.
  destruct proxy as [| | | | | |d];
    try (do 2 eexists; split; [reflexivity|]; split; [apply same_store_refl|done]).
  run. cbn [py_get].
  destruct (truthy (default VNone (assoc "server" d)));
    [|do 2 eexists; split; [reflexivity|]; split; [apply same_store_refl|by left]].
  destruct (truthy (default VNone (assoc "port" d)));
    [|do 2 eexists; split; [reflexivity|]; split; [apply same_store_refl|by left]].
  destruct (py_int (default VNone (assoc "port" d))) as [port|e];
    [|do 2 eexists; split; [reflexivity|]; split; [apply same_store_refl|done]].
  pose proof (tcp_connection_test_store (default VNone (assoc "server" d)) port
                (default (VStr "tcp") (assoc "type" d)) timeout w) as Hs.
  destruct (tcp_connection_test env _ port _ timeout w) as [future w'].
  do 2 eexists; split; [reflexivity|]. split; [exact Hs|].
  right. eexists. split; [done|]. by eexists.
Qed.

Lemma submit_loop timeout proxies futures w :
  ∃ r w',
    for_each proxies (submit_one env timeout) futures w = (r, w') ∧ same_store w w'
    ∧ ∀ futures', r = Ok futures' →
        ∃ new, futures' = futures ++ new
               ∧ Forall (fun fp => is_mapping (snd fp)) new
               ∧ sublist (snd <$> new) proxies.
Proof.
  revert futures w. induction proxies as [|proxy proxies IH]; intros futures w.
  - exists (Ok futures), w. split; [done|]. split; [apply same_store_refl|].
    intros ? [= <-]. exists []. by rewrite app_nil_r.
  - cbn [for_each].
    destruct (submit_one_cases timeout proxy futures w) as (r & w1 & Hrun & Hs & Hr).
    unfold bind at 1. rewrite Hrun. destruct r as [futures1|e].
    + destruct (IH futures1 w1) as (r2 & w2 & Hloop & Hs2 & Hr2).
      exists r2, w2. split; [done|]. split; [by eapply same_store_trans|].
      intros futures' ->. destruct (Hr2 _ eq_refl) as (new & -> & Hmap & Hsub).
      destruct Hr as [[-> ->]|(future & -> & Hp)].
      * exists new. split; [done|]. split; [done|]. by apply sublist_cons.
      * exists ((future, proxy) :: new). rewrite <- app_assoc. split; [done|].
        split; [by constructor|]. cbn. by apply sublist_skip.
    + exists (Raise e), w1. split; [done|]. split; [done|]. done.
Qed.

Lemma check_proxies_availability_run proxies timeout w :
  ∃ r w',
    check_proxies_availability env proxies timeout w = (r, w') ∧ same_store w w'
    ∧ ∀ out, r = Ok out →
        ∃ items futures w1,
          py_iter proxies = Ok items
          ∧ submit_probes env items timeout w = (Ok futures, w1)
          ∧ Forall (fun fp => is_mapping (snd fp)) futures
          ∧ sublist (snd <$> futures) items
          ∧ out = survivors (as_completed (probe_order env) futures).
Proof.
  unfold check_proxies_availability, bind at 1, lift at 1.
  destruct (py_iter proxies) as [items|e];
    [|exists (Raise e), w; split; [done|]; split; [apply same_store_refl|done]].
  destruct (submit_loop timeout items [] w) as (r & w1 & Hsub & Hs & Hr).
  unfold bind, submit_probes. rewrite Hsub. destruct r as [futures|e];
    [|exists (Raise e), w1; split; [done|]; split; [done|done]].
  destruct (Hr _ eq_refl) as (new & Hnew & Hmap & Hsl). cbn in Hnew. subst new.
  destruct (collect_available_run futures w1 Hmap) as (w2 & Hrun & _ & Hs2).
  rewrite Hrun. eexists _, w2. split; [done|]. split; [by eapply same_store_trans|].
  intros out [= <-]. by exists items, futures, w1.
Qed.

End Filter.



Lemma last_first_perm n : last_first n ≡ₚ seq 0 n.
Proof. unfold last_first. symmetry. apply Permutation_rev. Qed.

Lemma in_window_spec r :
  in_window r = true
  ↔ ∃ l, r = Ok (true, Some l)
         ∧ (inject_Z MIN_LATENCY_THRESHOLD <= l)%Q ∧ (l <= inject_Z LATENCY_THRESHOLD)%Q.
Proof.
  split.
  - destruct r as [[[] [l|]]|e]; cbn; try done.
    rewrite andb_true_iff, !Qle_bool_iff. eauto.
  - intros (l & -> & H1 & H2). cbn. rewrite andb_true_iff, !Qle_bool_iff. done.
Qed.

Lemma collect_one_keeps future proxy available w :
  is_mapping proxy →
  fst (collect_one (future, proxy) available w)
  = Ok (if in_window future then available ++ [proxy] else available).
Proof.
  intros Hp. destruct (collect_one_run future proxy available w Hp) as (w' & -> & _).
  cbn [fst]. destruct (in_window future); by rewrite ?app_nil_r.
Qed.

(** C2: the Filter keeps a node exactly when its probe found it reachable
    with a latency in the inclusive window [1 ms, 30 ms]: kept at 1 ms and
    at 30 ms, dropped at 0.9 ms and at 30.1 ms, and dropped whenever
    unreachable. *)
Theorem filter_keeps_latency_window (env : Env) (futures : list probe_future) w :
  Forall (fun fp => is_mapping (snd fp)) futures →
  probe_order env (length futures) ≡ₚ seq 0 (length futures) →
  ∃ out w',
    collect_available env futures w = (Ok out, w')
    ∧ out ≡ₚ survivors futures
    ∧ (∀ r, in_window r = true
            ↔ ∃ l, r = Ok (true, Some l)
                   ∧ (inject_Z MIN_LATENCY_THRESHOLD <= l)%Q
                   ∧ (l <= inject_Z LATENCY_THRESHOLD)%Q)
    ∧ (∀ future proxy available w0,
         is_mapping proxy →
         fst (collect_one (future, proxy) available w0)
         = Ok (if in_window future then available ++ [proxy] else available))
    ∧ (∀ proxy available w0,
         is_mapping proxy →
         fst (collect_one (Ok (true, Some 1%Q), proxy) available w0) = Ok (available ++ [proxy])
         ∧ fst (collect_one (Ok (true, Some 30%Q), proxy) available w0)
           = Ok (available ++ [proxy])
         ∧ fst (collect_one (Ok (true, Some (9 / 10)%Q), proxy) available w0) = Ok available
         ∧ fst (collect_one (Ok (true, Some (301 / 10)%Q), proxy) available w0) = Ok available
         ∧ ∀ latency,
             fst (collect_one (Ok (false, latency), proxy) available w0) = Ok available).
Proof.
  intros Hmap Hperm.
  destruct (collect_available_run env futures w Hmap) as (w' & Hrun & _).
  exists (survivors (as_completed (probe_order env) futures)), w'.
  split; [exact Hrun|]. split; [by apply survivors_perm, as_completed_perm|].
  split; [exact in_window_spec|]. split; [apply collect_one_keeps|].
  intros proxy available w0 Hp.
  repeat split; intros; by rewrite collect_one_keeps.
Qed.

Lemma filter_keeps_latency_window_witness :
  ∃ out w',
    collect_available env_lifo probed_nodes world0 = (Ok out, w')
    ∧ out ≡ₚ [node_a; node_c].
Proof.
  destruct (filter_keeps_latency_window env_lifo probed_nodes world0)
    as (out & w' & Hrun & Hout & _).
  - repeat constructor; eexists; reflexivity.
  - apply last_first_perm.
  - exists out, w'. split; [exact Hrun|]. exact Hout.
Defined.

(** C5, as the code has it: the output lists the surviving nodes in the
    order in which [as_completed] yields their futures.  It holds the
    surviving nodes of the input, each once, and has their input order when
    the futures complete in the order of submission. *)
Theorem filter_output_in_completion_order (env : Env) (futures : list probe_future) w :
  Forall (fun fp => is_mapping (snd fp)) futures →
  probe_order env (length futures) ≡ₚ seq 0 (length futures) →
  ∃ out w',
    collect_available env futures w = (Ok out, w')
    ∧ out = survivors (as_completed (probe_order env) futures)
    ∧ out ≡ₚ survivors futures
    ∧ (probe_order env (length futures) = seq 0 (length futures) →
       out = survivors futures).
Proof.
  intros Hmap Hperm.
  destruct (collect_available_run env futures w Hmap) as (w' & Hrun & _).
  exists (survivors (as_completed (probe_order env) futures)), w'.
  split; [exact Hrun|]. split; [done|].
  split; [by apply survivors_perm, as_completed_perm|].
  intros Heq. by rewrite as_completed_in_order.
Qed.

Lemma filter_output_in_completion_order_witness :
  ∃ out w',
    collect_available env_lifo probed_nodes world0 = (Ok out, w')
    ∧ out = [node_c; node_a].
Proof.
  destruct (filter_output_in_completion_order env_lifo probed_nodes world0)
    as (out & w' & Hrun & Hout & _).
  - repeat constructor; eexists; reflexivity.
  - apply last_first_perm.
  - exists out, w'. split; [exact Hrun|]. exact Hout.
Defined.

(** C5, as the claim states it, fails: two nodes that both survive come out
    in the order of completion, here the reverse of their input order. *)
Lemma filter_is_not_stable :
  ¬ (∀ (env : Env) (proxies : list pyval) timeout w out w',
       (∀ n, probe_order env n ≡ₚ seq 0 n) →
       check_proxies_availability env (VList proxies) timeout w = (Ok out, w') →
       sublist out proxies).
Proof.
  intros Hstable.
  destruct (check_proxies_availability env_lifo (VList [node_a; node_c]) 5 world0)
    as [r w'] eqn:Hrun.
  assert (r = Ok [node_c; node_a]) as ->.
  { change r with (fst (r, w')). rewrite <- Hrun. vm_compute. reflexivity. }
  specialize (Hstable env_lifo [node_a; node_c] 5%Q world0 [node_c; node_a] w'
                last_first_perm Hrun).
  apply sublist_cons_r in Hstable as [Hsub|(l' & [=] & _)].
  apply sublist_length in Hsub. cbn in Hsub. lia.
Qed.

(** C6, where the code parts from the claim: a node whose port is present
    but does not parse stops the comprehension that submits the probes with
    a [ValueError], which nothing catches: the probing phase fails, whatever
    the environment. *)
Theorem unparseable_port_aborts_probing (env : Env) timeout w :
  check_proxies_availability env (VList [node_bad_port]) timeout w
  = (Raise ValueError, w).
Proof. reflexivity. Qed.

(** The run dies of it too: a source that publishes such a node makes
    [main] end with the uncaught exception, after the first write. *)
Lemma unparseable_port_kills_main :
  ∃ w', main env_bad_port world0 = (Raise ValueError, w')
        ∧ writes w' = [(MERGED_PROXIES_FILE, [node_a; node_bad_port])].
Proof. eexists. split; vm_compute; reflexivity. Qed.

(** ** The aggregation of the sources *)

Section Aggregation.
Context (env : Env).

Lemma aggregates_refl w : aggregates w w [] [].
Proof. unfold aggregates, same_files. by rewrite !app_nil_r. Qed.

Lemma aggregates_trans w1 w2 w3 nodes1 nodes2 urls1 urls2 :
  aggregates w1 w2 nodes1 urls1 → aggregates w2 w3 nodes2 urls2 →
  aggregates w1 w3 (nodes1 ++ nodes2) (urls1 ++ urls2).
Proof.
  unfold aggregates, same_files.
  intros (-> & -> & ?) (-> & -> & ?). rewrite !app_assoc. intuition congruence.
Qed.

Lemma aggregates_log w l m :
  aggregates w (set_log (fun ls => ls ++ [(l, m)]) w) [] (option_list (fetching (l, m))).
Proof.
  unfold aggregates, same_files, fetched_urls. cbn.
  rewrite app_nil_r, omap_app. cbn. by destruct (fetching (l, m)).
Qed.

Lemma py_iter_falsy v items :
  truthy v = false → py_iter v = Ok items → items = [].
Proof.
  destruct v as [| | | |s|l|d]; cbn; try done.
  - destruct s; [by intros _ [= <-]|done].
  - destruct l; [by intros _ [= <-]|done].
  - destruct d; [by intros _ [= <-]|done].
Qed.

Lemma process_clash_run data index w :
  ∃ w',
    process_clash env data index w = (Ok tt, w')
    ∧ aggregates w w'
        match safe_load env data with
        | Ok (VDict d) =>
            match py_iter (default (VList []) (assoc "proxies" d)) with
            | Ok items => items
            | Raise _ => []
            end
        | _ => []
        end [].
Proof.
  unfold process_clash. run.
  destruct (safe_load env data) as [content|e];
    [|eexists; split; [done|]; apply (aggregates_log w ERROR (ErrorProcessingClash index e))].
  destruct content as [| | | | | |d];
    try (eexists; split; [done|];
         apply (aggregates_log w ERROR (ErrorProcessingClash index AttributeError))).
  cbn [py_get].
  destruct (truthy (default (VList []) (assoc "proxies" d))) eqn:Ht.
  - destruct (py_iter _) as [items|e]; eexists; (split; [done|]).
    + unfold aggregates, same_files, fetched_urls. cbn. by rewrite app_nil_r.
    + apply (aggregates_log w ERROR (ErrorProcessingClash index e)).
  - eexists. split; [done|].
    destruct (py_iter _) as [items|e] eqn:Hi.
    + rewrite (py_iter_falsy _ _ Ht Hi).
      apply (aggregates_log w WARNING (NoProxyConfiguration index)).
    + apply (aggregates_log w WARNING (NoProxyConfiguration index)).
Qed.

Lemma fetch_task_run url index w :
  ∃ r w',
    fetch_and_process_url env url (process_clash env) index w = (r, w')
    ∧ aggregates w w' (extracted env index url) [url].
Proof.
  unfold fetch_and_process_url, extracted, try_except_only, bind at 1, logging at 1.
  unfold bind at 1, lift at 1.
  pose proof (aggregates_log w INFO (FetchingURL url)) as Hlog. cbn in Hlog.
  set (w0 := set_log (fun ls => ls ++ [(INFO, FetchingURL url)]) w) in *.
  destruct (http_get env index url) as [data|e].
  - destruct (process_clash_run data index w0) as (w' & -> & Hagg).
    exists (Ok tt), w'. split; [done|]. apply (aggregates_trans _ _ _ _ _ _ _ Hlog Hagg).
  - destruct (is_RequestException e); do 2 eexists; (split; [done|]).
    + apply (aggregates_trans _ _ _ _ _ _ _ Hlog
               (aggregates_log w0 ERROR (ErrorProcessingURL url e))).
    + exact Hlog.
Qed.

Lemma fetch_pool_run urls order futures w :
  ∃ futures' w',
    for_each order
      (run_nth (imap (fun index url =>
                        fetch_and_process_url env url (process_clash env) index) urls))
      futures w
    = (Ok futures', w')
    ∧ aggregates w w' (concat (source_nodes env urls <$> order))
        (omap (fun i => urls !! i) order).
Proof.
  revert futures w. induction order as [|i order IH]; intros futures w.
  - exists futures, w. split; [done|]. apply aggregates_refl.
  - cbn [for_each fmap list_fmap concat omap list_omap]. unfold bind at 1, run_nth at 1.
    rewrite list_lookup_imap. unfold source_nodes at 1.
    destruct (urls !! i) as [url|]; cbn [fmap option_fmap option_map].
    + destruct (fetch_task_run url i w) as (r & w1 & Hrun & Hagg).
      unfold bind, run_task, ret. rewrite Hrun.
      destruct (IH (futures ++ [r]) w1) as (futures' & w2 & Hloop & Hagg2).
      exists futures', w2. split; [done|].
      apply (aggregates_trans _ _ _ _ _ _ _ Hagg Hagg2).
    + destruct (IH futures w) as (futures' & w2 & Hloop & Hagg2).
      exists futures', w2. unfold ret. by rewrite Hloop.
Qed.

Lemma log_failures_run (futures : list (result unit)) w :
  ∃ w', for_each futures log_failure tt w = (Ok tt, w') ∧ aggregates w w' [] [].
Proof.
  revert w. induction futures as [|future futures IH]; intros w.
  - exists w. split; [done|]. apply aggregates_refl.
  - cbn [for_each]. unfold bind, log_failure at 1. run.
    destruct future as [[]|e].
    + apply IH.
    + destruct (IH (set_log (fun ls => ls ++ [(ERROR, ErrorInURLProcessing e)]) w))
        as (w' & -> & Hagg). exists w'. split; [done|].
      apply (aggregates_trans _ _ _ _ _ _ _
               (aggregates_log w ERROR (ErrorInURLProcessing e)) Hagg).
Qed.

Lemma fetch_all_run urls w :
  ∃ w',
    fetch_all env urls (process_clash env) w = (Ok tt, w')
    ∧ aggregates w w'
        (concat (source_nodes env urls <$> fetch_order env (length urls)))
        (omap (fun i => urls !! i) (fetch_order env (length urls))).
Proof.
  unfold fetch_all, run_pool.
  destruct (fetch_pool_run urls (fetch_order env (length urls)) [] w)
    as (futures & w1 & Hpool & Hagg).
  unfold bind. rewrite Hpool.
  destruct (log_failures_run futures w1) as (w2 & Hlog & Hagg2).
  exists w2. split; [done|].
  pose proof (aggregates_trans _ _ _ _ _ _ _ Hagg Hagg2) as H.
  by rewrite !app_nil_r in H.
Qed.

Lemma source_nodes_seq urls :
  source_nodes env urls <$> seq 0 (length urls) = imap (extracted env) urls.
Proof.
  apply list_eq. intros i. rewrite list_lookup_fmap, list_lookup_imap.
  destruct (decide (i < length urls)%nat) as [Hlt|Hge].
  - rewrite lookup_seq_lt by done. cbn. unfold source_nodes.
    destruct (lookup_lt_is_Some_2 urls i Hlt) as [url ->]. done.
  - rewrite lookup_seq_ge by lia. by rewrite lookup_ge_None_2 by lia.
Qed.

End Aggregation.

(** C4, as the code has it: the aggregated collection is the concatenation
    of the node lists of the sources in the order in which the fetch tasks
    complete, each list whole and in document order, a source that fails
    giving nothing.  It is a permutation of the concatenation in source
    order, has the length of it, and is equal to it when the tasks complete
    in source order. *)
Theorem aggregation_in_completion_order (env : Env) (urls : list string) w :
  fetch_order env (length urls) ≡ₚ seq 0 (length urls) →
  ∃ w',
    fetch_all env urls (process_clash env) w = (Ok tt, w')
    ∧ merged_proxies w'
      = merged_proxies w
        ++ concat (source_nodes env urls <$> fetch_order env (length urls))
    ∧ merged_proxies w' ≡ₚ merged_proxies w ++ concat (imap (extracted env) urls)
    ∧ length (merged_proxies w')
      = (length (merged_proxies w)
         + sum_list (length <$> imap (extracted env) urls))%nat
    ∧ (fetch_order env (length urls) = seq 0 (length urls) →
       merged_proxies w' = merged_proxies w ++ concat (imap (extracted env) urls)).
Proof.
  intros Hperm.
  destruct (fetch_all_run env urls w) as (w' & Hrun & Hm & _).
  assert (merged_proxies w' ≡ₚ merged_proxies w ++ concat (imap (extracted env) urls))
    as Hp.
  { rewrite Hm, Hperm, source_nodes_seq. done. }
  exists w'. split; [done|]. split; [done|]. split; [done|]. split.
  - rewrite Hp, length_app, length_concat. done.
  - intros Heq. by rewrite Hm, Heq, source_nodes_seq.
Qed.

Lemma aggregation_in_completion_order_witness :
  ∃ w',
    fetch_all env_three_sources three_sources (process_clash env_three_sources) world0
    = (Ok tt, w')
    ∧ merged_proxies w' = [node_c; node_a; node_b]
    ∧ merged_proxies w' ≡ₚ [node_a; node_b; node_c]
    ∧ length (merged_proxies w') = 3%nat.
Proof.
  destruct (aggregation_in_completion_order env_three_sources three_sources world0)
    as (w' & Hrun & Hm & Hp & Hl & _).
  - apply last_first_perm.
  - exists w'. split; [exact Hrun|]. split; [exact Hm|]. split; [exact Hp|exact Hl].
Defined.

(** C4, as the claim states it, fails: with the third source completing
    before the first, its node comes first in the aggregated collection. *)
Lemma aggregation_not_in_source_order :
  ¬ (∀ (env : Env) (urls : list string) w w',
       fetch_order env (length urls) ≡ₚ seq 0 (length urls) →
       fetch_all env urls (process_clash env) w = (Ok tt, w') →
       merged_proxies w' = merged_proxies w ++ concat (imap (extracted env) urls)).
Proof.
  intros Hsource.
  destruct (fetch_all_run env_three_sources three_sources world0) as (w' & Hrun & Hm & _).
  specialize (Hsource env_three_sources three_sources world0 w'
                (last_first_perm _) Hrun).
  rewrite Hsource in Hm. vm_compute in Hm. discriminate Hm.
Qed.

(** ** The source lists *)

Section SourceList.
Context (env : Env).

Lemma lstrip_blank s :
  forallb PyStr.isspace (list_ascii_of_string (PyStr.lstrip s))
  = forallb PyStr.isspace (list_ascii_of_string s).
Proof.
  induction s as [|c s IH]; [done|]. cbn.
  destruct (PyStr.isspace c) eqn:Hc; cbn; [done|by rewrite Hc].
Qed.

Lemma rstrip_empty s :
  PyStr.rstrip s = EmptyString ↔ forallb PyStr.isspace (list_ascii_of_string s) = true.
Proof.
  induction s as [|c s IH]; [done|]. cbn.
  destruct (PyStr.rstrip s) as [|c' r].
  - destruct (PyStr.isspace c); cbn; [tauto|]. split; done.
  - rewrite andb_true_iff. split; [done|]. intros [_ H]. apply IH in H. done.
Qed.

Lemma strip_empty s : PyStr.strip s = EmptyString ↔ blank s = true.
Proof. unfold PyStr.strip, blank. by rewrite rstrip_empty, lstrip_blank. Qed.

Lemma kept_line_not_ignored url :
  negb (String.eqb (PyStr.strip url) EmptyString) && negb (PyStr.startswith url "#")
  = negb (ignored url).
Proof.
  unfold ignored. rewrite negb_orb. f_equal. f_equal.
  destruct (blank url) eqn:Hb.
  - apply strip_empty in Hb. rewrite Hb. done.
  - apply String.eqb_neq. intros H. apply strip_empty in H. congruence.
Qed.

Lemma lstrip_head s c t : PyStr.lstrip s = String c t → PyStr.isspace c = false.
Proof.
  induction s as [|c' s IH]; [done|]. cbn.
  destruct (PyStr.isspace c') eqn:Hc; [done|]. by intros [= <- _].
Qed.

Lemma rstrip_head c t :
  PyStr.isspace c = false → ∃ r, PyStr.rstrip (String c t) = String c r.
Proof. intros Hc. cbn. rewrite Hc. destruct (PyStr.rstrip t); eauto. Qed.

Lemma strip_not_blank line : blank line = false → blank (PyStr.strip line) = false.
Proof.
  intros Hb. unfold PyStr.strip.
  destruct (PyStr.lstrip line) as [|c t] eqn:Hl.
  - unfold blank in Hb. by rewrite <- lstrip_blank, Hl in Hb.
  - pose proof (lstrip_head _ _ _ Hl) as Hc.
    destruct (rstrip_head c t Hc) as [r ->]. unfold blank. cbn. by rewrite Hc.
Qed.

Lemma clean_urls_spec lines :
  clean_urls lines = PyStr.strip <$> filter (fun l => negb (ignored l)) lines.
Proof.
  unfold clean_urls. f_equal. apply list_filter_iff. intros url.
  by rewrite kept_line_not_ignored.
Qed.


Lemma read_url_lines_loop url_files urls w :
  ∃ r w',
    for_each url_files (fun url_file urls =>
      match url_list env url_file with
      | Missing => logging ERROR (FileNotFound url_file) ;; ret urls
      | Lines ls => ret (urls ++ ls)
      | Unreadable e => raise e
      end) urls w = (r, w')
    ∧ aggregates w w' [] []
    ∧ (Forall (readable env) url_files → r = Ok (urls ++ source_lines env url_files)).
Proof.
  revert urls w. induction url_files as [|url_file url_files IH]; intros urls w.
  - exists (Ok urls), w. split; [done|]. split; [apply aggregates_refl|].
    intros _. unfold source_lines. cbn. by rewrite app_nil_r.
  - cbn [for_each]. unfold bind at 1, source_lines. cbn [fmap list_fmap concat].
    destruct (url_list env url_file) as [|ls|e] eqn:Hf.
    + run.
      destruct (IH urls (set_log (fun ls => ls ++ [(ERROR, FileNotFound url_file)]) w))
        as (r & w' & -> & Hagg & Hr).
      exists r, w'. split; [done|]. split.
      * apply (aggregates_trans _ _ _ _ _ _ _
                 (aggregates_log w ERROR (FileNotFound url_file)) Hagg).
      * intros Hread. apply Hr. by inversion Hread.
    + run. destruct (IH (urls ++ ls) w) as (r & w' & -> & Hagg & Hr).
      exists r, w'. split; [done|]. split; [done|].
      intros Hread. rewrite Hr by (by inversion Hread).
      by rewrite <- app_assoc.
    + exists (Raise e), w. split; [done|]. split; [apply aggregates_refl|].
      intros Hread. inversion Hread as [|?? Hx]. by destruct (Hx e).
Qed.

Lemma process_urls_total url_files w :
  ∃ w' nodes urls,
    process_urls env url_files (process_clash env) w = (Ok tt, w')
    ∧ aggregates w w' nodes urls
    ∧ (Forall (readable env) (paths url_files) →
       let sources := clean_urls (source_lines env (paths url_files)) in
       nodes = concat (source_nodes env sources <$> fetch_order env (length sources))
       ∧ urls = omap (fun i => sources !! i) (fetch_order env (length sources))).
Proof.
  unfold process_urls, read_url_lines. fold (paths url_files).
  destruct (read_url_lines_loop (paths url_files) [] w) as (r & w1 & Hread & Hagg & Hr).
  unfold try_except, bind at 1. rewrite Hread. destruct r as [lines|e].
  - unfold bind at 1, logging at 1.
    pose proof (aggregates_log w1 INFO (ProcessingURLs (length (clean_urls lines))))
      as Hlog. cbn in Hlog.
    destruct (fetch_all_run env (clean_urls lines)
                (set_log (fun ls => ls ++ [(INFO, ProcessingURLs (length (clean_urls lines)))])
                   w1)) as (w2 & -> & Hfetch).
    do 3 eexists. split; [done|]. split.
    + pose proof (aggregates_trans _ _ _ _ _ _ _ Hagg
                    (aggregates_trans _ _ _ _ _ _ _ Hlog Hfetch)) as H.
      cbn in H. exact H.
    + intros Hall. specialize (Hr Hall). cbn in Hr. injection Hr as ->. done.
  - exists (set_log (fun ls => ls ++ [(ERROR, ErrorProcessingURLs e)]) w1), [], [].
    split; [done|]. split.
    + pose proof (aggregates_trans _ _ _ _ _ _ _ Hagg
                    (aggregates_log w1 ERROR (ErrorProcessingURLs e))) as H.
      exact H.
    + intros Hall. by specialize (Hr Hall).
Qed.

Lemma read_url_lines_unreadable url_files urls w :
  Exists (unreadable env) url_files →
  ∃ e w',
    for_each url_files (fun url_file urls =>
      match url_list env url_file with
      | Missing => logging ERROR (FileNotFound url_file) ;; ret urls
      | Lines ls => ret (urls ++ ls)
      | Unreadable e => raise e
      end) urls w = (Raise e, w')
    ∧ aggregates w w' [] [].
Proof.
  intros Hex. revert urls w.
  induction Hex as [url_file url_files [e He]|url_file url_files _ IH]; intros urls w.
  - cbn [for_each]. unfold bind. rewrite He.
    exists e, w. split; [done|apply aggregates_refl].
  - cbn [for_each]. unfold bind at 1.
    destruct (url_list env url_file) as [|ls|e].
    + run.
      destruct (IH urls (set_log (fun ls => ls ++ [(ERROR, FileNotFound url_file)]) w))
        as (e & w' & Hloop & Hagg).
      exists e, w'. split; [exact Hloop|].
      apply (aggregates_trans _ _ _ _ _ _ _
               (aggregates_log w ERROR (FileNotFound url_file)) Hagg).
    + run. destruct (IH (urls ++ ls) w) as (e & w' & Hloop & Hagg). by exists e, w'.
    + exists e, w. split; [done|apply aggregates_refl].
Qed.

Lemma startswith_sign s : PyStr.startswith s "#" = true → ∃ t, s = String "#" t.
Proof.
  unfold PyStr.startswith. destruct s as [|c t]; [done|]. cbn [String.prefix].
  destruct (ascii_dec "#" c) as [<-|]; [by eexists|done].
Qed.

Lemma holds_url_not_ignored line : holds_url line = true → ignored line = false.
Proof.
  unfold holds_url, ignored. intros [Hb Hs]%andb_true_iff.
  apply negb_true_iff in Hb, Hs. rewrite Hb. cbn [orb].
  destruct (PyStr.startswith line "#") eqn:Hsign; [|done].
  apply startswith_sign in Hsign as [t ->].
  unfold PyStr.strip in Hs. cbn [PyStr.lstrip] in Hs.
  change (PyStr.isspace "#") with false in Hs. cbn iota in Hs.
  destruct (rstrip_head "#" t eq_refl) as [r Hr]. rewrite Hr in Hs.
  unfold PyStr.startswith in Hs. cbn [String.prefix] in Hs.
  destruct (ascii_dec "#" "#"); [by destruct r|done].
Qed.

Lemma urls_within_kept lines :
  PyStr.strip <$> filter (fun line => holds_url line) lines
  ⊆+ PyStr.strip <$> filter (fun line => negb (ignored line)) lines.
Proof.
  apply sublist_submseteq, fmap_sublist.
  induction lines as [|line lines IH]; [done|].
  rewrite !filter_cons. pose proof (holds_url_not_ignored line) as Hline.
  repeat case_decide.
  - by apply sublist_skip.
  - exfalso. destruct (holds_url line); [|done]. rewrite Hline in * by done. auto.
  - by apply sublist_cons.
  - done.
Qed.

Lemma process_urls_unreadable url_files w :
  Exists (unreadable env) (paths url_files) →
  ∃ w',
    process_urls env url_files (process_clash env) w = (Ok tt, w')
    ∧ fetched_urls w' = fetched_urls w.
Proof.
  intros Hex. unfold process_urls, read_url_lines. fold (paths url_files).
  destruct (read_url_lines_unreadable (paths url_files) [] w Hex)
    as (e & w1 & Hread & _ & Hf & _).
  unfold try_except, bind at 1. rewrite Hread.
  eexists. split; [done|]. rewrite app_nil_r in Hf.
  unfold fetched_urls in *. cbn. rewrite omap_app. cbn. by rewrite app_nil_r.
Qed.

End SourceList.

(** C7, as the code has it: where every listed file is absent or readable,
    a line that is blank or begins with the comment sign gives rise to no
    fetch; every line that is not blank and, without the whitespace around
    it, does not begin with the sign is passed to the Fetcher, stripped, as
    one URL; every URL passed is a remaining line, stripped, and none is
    blank.  Where a listed file exists and cannot be read, no URL is passed
    at all. *)
Theorem source_list_lines_filtered (env : Env) (url_files : url_files_arg) w :
  let lines := source_lines env (paths url_files) in
  let kept := filter (fun line => negb (ignored line)) lines in
  fetch_order env (length kept) ≡ₚ seq 0 (length kept) →
  ∃ w' urls,
    process_urls env url_files (process_clash env) w = (Ok tt, w')
    ∧ fetched_urls w' = fetched_urls w ++ urls
    ∧ (Forall (readable env) (paths url_files) →
       PyStr.strip <$> filter (fun line => holds_url line) lines ⊆+ urls
       ∧ urls ⊆+ PyStr.strip <$> kept
       ∧ ∀ url, url ∈ urls →
           blank url = false
           ∧ ∃ line, line ∈ lines ∧ ignored line = false ∧ url = PyStr.strip line)
    ∧ (Exists (unreadable env) (paths url_files) → urls = []).
Proof.
  intros lines kept Hperm.
  destruct (process_urls_total env url_files w) as (w' & nodes & urls & Hrun & Hagg & Hspec).
  destruct Hagg as (_ & Hfetched & _).
  exists w', urls. split; [done|]. split; [done|]. split.
  - intros Hread. destruct (Hspec Hread) as [_ Hurls]. fold lines in Hurls.
    rewrite (clean_urls_spec lines) in Hurls. fold kept in Hurls.
    rewrite length_fmap in Hurls.
    assert (urls ≡ₚ PyStr.strip <$> kept) as Hp.
    { rewrite Hurls, Hperm. rewrite <- (length_fmap PyStr.strip kept).
      by rewrite omap_lookup_seq. }
    split; [rewrite Hp; apply urls_within_kept|]. split; [by rewrite Hp|].
    intros url Hurl. rewrite Hp in Hurl.
    apply list_elem_of_fmap in Hurl as (line & -> & Hline).
    apply list_elem_of_filter in Hline as [Hkept Hline].
    apply negb_prop_elim, Is_true_false in Hkept.
    split; [|by exists line].
    apply strip_not_blank. unfold ignored in Hkept. by apply orb_false_elim in Hkept as [? _].
  - intros Hex.
    destruct (process_urls_unreadable env url_files w Hex) as (w'' & Hrun' & Hsame).
    rewrite Hrun in Hrun'. injection Hrun' as <-.
    rewrite Hfetched in Hsame. rewrite <- (app_nil_r (fetched_urls w)) in Hsame at 2.
    by apply app_inv_head in Hsame.
Qed.

Lemma source_list_lines_filtered_witness :
  ∃ w' urls,
    process_urls env_commented (Paths URL_FILE_OR_FILES) (process_clash env_commented) world0
    = (Ok tt, w')
    ∧ fetched_urls w' = urls
    ∧ ["https://one.example/sub"; "https://two.example/sub"] ⊆+ urls
    ∧ urls ⊆+ ["https://one.example/sub"; "https://two.example/sub"].
Proof.
  destruct (source_list_lines_filtered env_commented (Paths URL_FILE_OR_FILES) world0)
    as (w' & urls & Hrun & Hfetched & Hread & _).
  - apply last_first_perm.
  - destruct Hread as (Hlow & Hup & _).
    { repeat constructor; intros e; vm_compute; discriminate. }
    exists w', urls. split; [exact Hrun|]. split; [exact Hfetched|].
    split; [exact Hlow|exact Hup].
Defined.

(** C7, as the claim states it, fails twice.  A comment that is indented
    does not begin with the sign: it is fetched, stripped, as a URL that
    begins with the sign.  And with a second list that cannot be read, the
    URLs of the first list are not fetched. *)
Lemma source_list_claim_fails :
  ¬ (∀ (env : Env) url_files w w',
       process_urls env url_files (process_clash env) w = (Ok tt, w') →
       ∀ url, url ∈ fetched_urls w' →
         url ∈ fetched_urls w ∨ PyStr.startswith url "#" = false)
  ∧ ¬ (∀ (env : Env) url_files w w',
         process_urls env url_files (process_clash env) w = (Ok tt, w') →
         ∀ line, line ∈ source_lines env (paths url_files) → ignored line = false →
           PyStr.strip line ∈ fetched_urls w').
Proof.
  split.
  - intros Hclaim.
    pose (run := process_urls env_indented (Paths URL_FILE_OR_FILES)
                   (process_clash env_indented) world0).
    assert (fst run = Ok tt) as Hr by (vm_compute; reflexivity).
    assert (fetched_urls (snd run) = ["# note"; "https://one.example/sub"]) as Hf
      by (vm_compute; reflexivity).
    destruct (Hclaim env_indented (Paths URL_FILE_OR_FILES) world0 (snd run)) with "# note"
      as [Hin|Hsign].
    + rewrite <- Hr. apply surjective_pairing.
    + rewrite Hf. apply list_elem_of_here.
    + by apply elem_of_nil in Hin.
    + discriminate Hsign.
  - intros Hclaim.
    pose (run := process_urls env_unreadable (Paths URL_FILE_OR_FILES)
                   (process_clash env_unreadable) world0).
    assert (fst run = Ok tt) as Hr by (vm_compute; reflexivity).
    assert (fetched_urls (snd run) = []) as Hf by (vm_compute; reflexivity).
    specialize (Hclaim env_unreadable (Paths URL_FILE_OR_FILES) world0 (snd run)).
    rewrite <- Hr in Hclaim. specialize (Hclaim (surjective_pairing _)).
    specialize (Hclaim "https://one.example/sub").
    rewrite Hf in Hclaim. eapply elem_of_nil, Hclaim; [|reflexivity].
    apply list_elem_of_here.
Qed.

(** ** The run *)

Section Run.
Context (env : Env).

Lemma save_yaml_run path data w :
  let o := write env (length (writes w)) in
  save_yaml env path data w
  = (Ok tt,
     {| attempts := attempts w;
        log := log w ++ write_error path o;
        merged_proxies := merged_proxies w;
        disk := disk_after env path data o (disk w);
        writes := writes w ++ [(path, data)] |}).
Proof.
  unfold save_yaml, write_yaml, try_except, logging. cbn.
  destruct (write env (length (writes w))); cbn; unfold set_disk, set_writes, set_log; cbn;
    by rewrite ?app_nil_r.
Qed.

Lemma load_yaml_run path w :
  ∃ v w',
    load_yaml path w = (Ok v, w')
    ∧ attempts w' = attempts w ∧ same_store w w'
    ∧ (∀ doc, disk w !! path = Some (Ok doc) → v = doc ∧ w' = w).
Proof.
  unfold load_yaml, read_yaml, try_except, same_store. run.
  destruct (disk w !! path) as [[doc|e]|]; do 2 eexists; (split; [done|]);
    cbn; (split; [done|]); (split; [done|]); by intros ? [= <-].
Qed.


Lemma main_run w :
  ∃ r w' rest,
    main env w = (r, w')
    ∧ writes w' = writes w ++ (MERGED_PROXIES_FILE, merged_proxies w') :: rest
    ∧ (merged_proxies w' = [] → write env (length (writes w)) = Written →
       r = Ok tt ∧ rest = []
       ∧ disk w' !! MERGED_PROXIES_FILE = Some (Ok (VDict [("proxies", VList [])]))
       ∧ last (log w') = Some (WARNING, NoProxiesToCheck)).
Proof.
  unfold main. unfold bind at 1.
  destruct (process_urls_total env (Paths URL_FILE_OR_FILES)
              (set_merged_proxies (fun _ => []) w))
    as (w1 & nodes & urls & Hurls & (Hm1 & _ & _ & Hd1 & Hw1) & _).
  cbn in Hm1, Hd1, Hw1.
  unfold bind at 1. rewrite Hurls. unfold bind at 1, bind at 1.
  rewrite save_yaml_run. rewrite Hw1.
  set (o := write env (length (writes w))).
  unfold bind at 1, logging at 1.
  set (w3 := set_log _ _).
  destruct (load_yaml_run MERGED_PROXIES_FILE w3)
    as (loaded & w4 & Hload & _ & (Hm4 & Hd4 & Hw4) & Hdoc).
  unfold bind at 1. rewrite Hload. unfold bind at 1, lift at 1.
  destruct (py_get loaded "proxies" (VList [])) as [proxies|e] eqn:Hget.
  - destruct (truthy proxies) eqn:Htruthy.
    + destruct (check_proxies_availability_run env proxies 5 w4)
        as (r & w5 & Hcheck & (Hm5 & Hd5 & Hw5) & _).
      unfold bind at 1. rewrite Hcheck. destruct r as [available|e].
      * unfold bind at 1. rewrite save_yaml_run. unfold logging.
        eexists _, _, [(MERGED_PROXIES_FILE, available)]. split; [done|].
        cbn. rewrite Hw5, Hw4, Hm5, Hm4. cbn. rewrite <- app_assoc. split; [done|].
        intros Hnil Hwritten. exfalso.
        rewrite Hm1 in Hnil. rewrite Hnil in *.
        destruct (Hdoc (VDict [("proxies", VList [])])) as [-> _].
        { subst w3 o. cbn. rewrite Hwritten, Hm1. cbn. apply lookup_insert_eq. }
        cbn in Hget. injection Hget as <-. done.
      * eexists _, _, []. split; [done|].
        rewrite Hw5, Hw4, Hm5, Hm4. cbn. split; [done|].
        intros Hnil Hwritten. exfalso.
        rewrite Hm1 in Hnil. rewrite Hnil in *.
        destruct (Hdoc (VDict [("proxies", VList [])])) as [-> _].
        { subst w3 o. cbn. rewrite Hwritten, Hm1. cbn. apply lookup_insert_eq. }
        cbn in Hget. injection Hget as <-. done.
    + unfold logging. eexists _, _, []. split; [done|].
      cbn. rewrite Hw4, Hm4. cbn. split; [done|].
      intros Hnil Hwritten. split; [done|]. split; [done|].
      rewrite Hm1 in Hnil. rewrite Hnil in *.
      rewrite Hd4. subst w3 o. cbn. rewrite Hwritten, Hm1. cbn.
      split; [apply lookup_insert_eq|apply last_snoc].
  - eexists _, _, []. split; [done|].
    rewrite Hw4, Hm4. cbn. split; [done|].
    intros Hnil Hwritten. exfalso.
    rewrite Hm1 in Hnil. rewrite Hnil in *.
    destruct (Hdoc (VDict [("proxies", VList [])])) as [-> _].
    { subst w3 o. cbn. rewrite Hwritten, Hm1. cbn. apply lookup_insert_eq. }
    cbn in Hget. done.
Qed.

(** The run after the first write of the output file. *)
Lemma main_after_first_write w :
  ∃ w1,
    process_urls env (Paths URL_FILE_OR_FILES) (process_clash env)
      (set_merged_proxies (fun _ => []) w) = (Ok tt, w1)
    ∧ main env w
      = check_saved_proxies env
          {| attempts := attempts w;
             log := (log w1
                     ++ write_error MERGED_PROXIES_FILE (write env (length (writes w))))
                    ++ [(INFO, AggregationCompleted)];
             merged_proxies := merged_proxies w1;
             disk := disk_after env MERGED_PROXIES_FILE (merged_proxies w1)
                       (write env (length (writes w))) (disk w);
             writes := writes w ++ [(MERGED_PROXIES_FILE, merged_proxies w1)] |}.
Proof.
  destruct (process_urls_total env (Paths URL_FILE_OR_FILES)
              (set_merged_proxies (fun _ => []) w))
    as (w1 & nodes & urls & Hurls & (_ & _ & Ha1 & Hd1 & Hw1) & _).
  cbn in Ha1, Hd1, Hw1.
  exists w1. split; [done|].
  unfold main, check_saved_proxies. unfold bind at 1. cbn beta iota.
  unfold bind at 1. rewrite Hurls.
  unfold bind at 1, bind at 1. rewrite save_yaml_run.
  unfold bind at 1, logging at 1. cbn. by rewrite Ha1, Hd1, Hw1.
Qed.

Lemma output_within_input proxies timeout w out w' :
  check_proxies_availability env proxies timeout w = (Ok out, w') →
  ∃ items,
    py_iter proxies = Ok items
    ∧ (∀ p, p ∈ out → p ∈ items)
    ∧ ((∀ n, probe_order env n ≡ₚ seq 0 n) → out ⊆+ items).
Proof.
  intros Hrun.
  destruct (check_proxies_availability_run env proxies timeout w)
    as (r & w'' & Hrun' & _ & Hr).
  rewrite Hrun in Hrun'. injection Hrun' as <- <-.
  destruct (Hr out eq_refl) as (items & futures & w1 & Hit & _ & _ & Hsub & ->).
  exists items. split; [done|]. split.
  - intros p Hp.
    unfold survivors in Hp. apply list_elem_of_fmap in Hp as (fp & -> & Hfp).
    apply list_elem_of_filter in Hfp as [_ Hfp]. apply as_completed_elem in Hfp.
    eapply elem_of_sublist; [|exact Hsub]. apply list_elem_of_fmap. eauto.
  - intros Hperm.
    rewrite (survivors_perm _ _ (as_completed_perm _ _ (Hperm _))).
    apply sublist_submseteq. etrans; [|exact Hsub].
    unfold survivors. apply fmap_sublist, sublist_filter.
Qed.

Lemma check_saved_mapping w d :
  disk w !! MERGED_PROXIES_FILE = Some (Ok (VDict d)) →
  ∃ r w' rest,
    check_saved_proxies env w = (r, w')
    ∧ writes w' = writes w ++ rest
    ∧ merged_proxies w' = merged_proxies w
    ∧ ∀ file data, (file, data) ∈ rest →
        ∃ items,
          py_iter (default (VList []) (assoc "proxies" d)) = Ok items
          ∧ (∀ p, p ∈ data → p ∈ items)
          ∧ ((∀ n, probe_order env n ≡ₚ seq 0 n) → data ⊆+ items).
Proof.
  intros Hdisk. unfold check_saved_proxies.
  destruct (load_yaml_run MERGED_PROXIES_FILE w) as (loaded & w4 & Hload & _ & _ & Hdoc).
  destruct (Hdoc _ Hdisk) as [-> ->].
  unfold bind at 1. rewrite Hload. unfold bind at 1, lift at 1. cbn [py_get].
  set (proxies := default (VList []) (assoc "proxies" d)).
  destruct (truthy proxies).
  - destruct (check_proxies_availability env proxies 5 w) as [r w5] eqn:Hcheck.
    destruct (check_proxies_availability_run env proxies 5 w)
      as (r' & w5' & Hrun' & (Hm5 & _ & Hw5) & _).
    rewrite Hcheck in Hrun'. injection Hrun' as <- <-.
    unfold bind at 1. rewrite Hcheck. destruct r as [available|e].
    + unfold bind at 1. rewrite save_yaml_run. unfold logging.
      eexists _, _, [(MERGED_PROXIES_FILE, available)]. split; [done|].
      cbn. rewrite Hw5, Hm5. split; [done|]. split; [done|].
      intros file data Hin. apply list_elem_of_singleton in Hin as [= -> ->].
      by apply (output_within_input proxies 5 w available w5).
    + eexists _, _, []. split; [done|]. rewrite Hw5, Hm5, app_nil_r.
      split; [done|]. split; [done|]. intros file data Hin. by apply elem_of_nil in Hin.
  - unfold logging. eexists _, _, []. split; [done|]. cbn. rewrite app_nil_r.
    split; [done|]. split; [done|]. intros file data Hin. by apply elem_of_nil in Hin.
Qed.


Lemma check_saved_unloadable w e :
  disk w !! MERGED_PROXIES_FILE = Some (Raise e) →
  ∃ w',
    check_saved_proxies env w = (Ok tt, w')
    ∧ writes w' = writes w ∧ merged_proxies w' = merged_proxies w.
Proof.
  intros Hdisk. unfold check_saved_proxies, load_yaml, read_yaml, try_except. run.
  rewrite Hdisk. cbn. eexists. by split.
Qed.

Lemma dumped_nodes_read_back data nodes :
  dumped_nodes env data = Ok nodes → read_back env data nodes.
Proof.
  revert nodes. induction data as [|proxy data IH]; intros nodes; cbn.
  - intros [= <-]. constructor.
  - destruct (dump_load env proxy) as [proxy'|e] eqn:Hp; [|done].
    destruct (dumped_nodes env data) as [nodes'|e]; [|done].
    intros [= <-]. constructor; [done|]. by apply IH.
Qed.

Lemma read_back_elem nodes nodes' p :
  read_back env nodes nodes' → p ∈ nodes' → ∃ n, n ∈ nodes ∧ dump_load env n = Ok p.
Proof.
  intros Hback. induction Hback as [|n p' nodes nodes' Hn _ IH].
  - intros Hin. by apply elem_of_nil in Hin.
  - intros [->|Hin]%elem_of_cons.
    + exists n. split; [apply list_elem_of_here|done].
    + destruct (IH Hin) as (n' & Hn' & Hp). exists n'. split; [by apply list_elem_of_further|done].
Qed.

Lemma read_back_unchanged nodes nodes' :
  read_back env nodes nodes' →
  Forall (fun n => dump_load env n = Ok n) nodes → nodes' = nodes.
Proof.
  intros Hback. induction Hback as [|n p nodes nodes' Hn _ IH]; [done|].
  intros Hall. inversion Hall as [|?? Hid Hall']. subst.
  rewrite Hid in Hn. injection Hn as <-. f_equal. by apply IH.
Qed.

(** The run whose first write succeeds: what it writes afterwards is
    drawn from the aggregated nodes as they read back. *)
Lemma main_written w :
  write env (length (writes w)) = Written →
  ∃ r w' rest,
    main env w = (r, w')
    ∧ writes w' = writes w ++ (MERGED_PROXIES_FILE, merged_proxies w') :: rest
    ∧ ∀ file data, (file, data) ∈ rest →
        ∃ nodes,
          read_back env (merged_proxies w') nodes
          ∧ (∀ p, p ∈ data → p ∈ nodes)
          ∧ ((∀ n, probe_order env n ≡ₚ seq 0 n) → data ⊆+ nodes).
Proof.
  intros Hwritten.
  destruct (main_after_first_write w) as (w1 & _ & ->). rewrite Hwritten.
  set (w3 := {| attempts := attempts w |}).
  assert (disk w3 !! MERGED_PROXIES_FILE = Some (dumped_document env (merged_proxies w1)))
    as Hdisk by (subst w3; cbn; apply lookup_insert_eq).
  unfold dumped_document in Hdisk.
  destruct (dumped_nodes env (merged_proxies w1)) as [nodes|e] eqn:Hnodes.
  - destruct (check_saved_mapping w3 [("proxies", VList nodes)] Hdisk)
      as (r & w' & rest & Hrun & Hw & Hm & Hrest).
    exists r, w', rest. split; [done|]. rewrite Hw, Hm. subst w3.
    cbn [writes merged_proxies]. rewrite <- app_assoc. split; [done|].
    intros file data Hin. destruct (Hrest file data Hin) as (items & [= <-] & Hall & Hsub).
    exists nodes. split; [by apply dumped_nodes_read_back|done].
  - destruct (check_saved_unloadable w3 e Hdisk) as (w' & Hrun & Hw & Hm).
    exists (Ok tt), w', []. split; [done|]. rewrite Hw, Hm. subst w3.
    cbn [writes merged_proxies]. split; [done|].
    intros file data Hin. by apply elem_of_nil in Hin.
Qed.

End Run.


(** C8, as the code has it: a write of the output file that fails is caught
    in [save_yaml] and logged as an error, and the run goes on.  The run
    always attempts to write the aggregated collection, whatever failed
    among the sources; when no source yields a node and that write
    succeeds, the file holds an empty proxies list, the run warns that there
    is nothing to check and exits normally. *)
Theorem write_failure_logged_not_fatal (env : Env) w :
  (∀ path data w0,
     ∃ w1,
       save_yaml env path data w0 = (Ok tt, w1)
       ∧ writes w1 = writes w0 ++ [(path, data)]
       ∧ log w1 = log w0 ++ write_error path (write env (length (writes w0))))
  ∧ ∃ r w' rest,
      main env w = (r, w')
      ∧ writes w' = writes w ++ (MERGED_PROXIES_FILE, merged_proxies w') :: rest
      ∧ (merged_proxies w' = [] → write env (length (writes w)) = Written →
         r = Ok tt ∧ rest = []
         ∧ disk w' !! MERGED_PROXIES_FILE = Some (Ok (VDict [("proxies", VList [])]))
         ∧ last (log w') = Some (WARNING, NoProxiesToCheck)).
Proof.
  split.
  - intros path data w0. eexists. split; [apply save_yaml_run|]. done.
  - apply main_run.
Qed.

(** C8, as the claim states it, fails: the write of the final collection
    fails, and the run exits normally, the file still holding the
    collection before the filter. *)
Lemma write_failure_exits_normally :
  ¬ (∀ (env : Env) w r w',
       main env w = (r, w') → write_failed env w w' → ∃ e, r = Raise e).
Proof.
  intros Hfatal.
  pose (run := main env_write_fails world0).
  assert (fst run = Ok tt) as Hr by (vm_compute; reflexivity).
  assert (writes (snd run)
          = [(MERGED_PROXIES_FILE, [node_a; node_b; node_c]);
             (MERGED_PROXIES_FILE, [node_a; node_b])]) as Hw
    by (vm_compute; reflexivity).
  destruct (Hfatal env_write_fails world0 (fst run) (snd run)) as [e He].
  - apply surjective_pairing.
  - exists 1%nat. rewrite Hw. cbn. split; [lia|done].
  - rewrite Hr in He. discriminate He.
Qed.

(** A run without any source list: an empty list is written, with a
    warning, and the run exits normally. *)
Lemma empty_run :
  ∃ w',
    main env_mixed world0 = (Ok tt, w')
    ∧ writes w' = [(MERGED_PROXIES_FILE, [])]
    ∧ last (log w') = Some (WARNING, NoProxiesToCheck).
Proof. eexists. repeat split; vm_compute; reflexivity. Qed.

(** C9, as the code has it: the probe of the nodes leaves the stored
    collection as it was, and every node of the Filter's output is a node
    of the collection it was given, with all its fields.  Over the run,
    when the first write of the output file succeeds, every node written
    afterwards is an aggregated node as it reads back from the file: the
    aggregated node itself wherever the nodes read back as they were
    written. *)
Theorem nodes_pass_through_unmodified (env : Env) w :
  (∀ proxies timeout w0,
     ∃ r w',
       check_proxies_availability env proxies timeout w0 = (r, w')
       ∧ same_store w0 w'
       ∧ ∀ out, r = Ok out →
           ∃ items,
             py_iter proxies = Ok items
             ∧ (∀ p, p ∈ out → p ∈ items)
             ∧ ((∀ n, probe_order env n ≡ₚ seq 0 n) → out ⊆+ items))
  ∧ (write env (length (writes w)) = Written →
     ∃ r w' rest,
       main env w = (r, w')
       ∧ writes w' = writes w ++ (MERGED_PROXIES_FILE, merged_proxies w') :: rest
       ∧ ∀ file data, (file, data) ∈ rest →
           (∀ p, p ∈ data → ∃ n, n ∈ merged_proxies w' ∧ dump_load env n = Ok p)
           ∧ ((∀ n, n ∈ merged_proxies w' → dump_load env n = Ok n) →
              ∀ p, p ∈ data → p ∈ merged_proxies w')).
Proof.
  split.
  - intros proxies timeout w0.
    destruct (check_proxies_availability env proxies timeout w0) as [r w'] eqn:Hrun.
    exists r, w'. split; [done|]. split.
    + destruct (check_proxies_availability_run env proxies timeout w0)
        as (r' & w'' & Hrun' & Hs & _).
      rewrite Hrun in Hrun'. by injection Hrun' as <- <-.
    + intros out ->. by apply (output_within_input env proxies timeout w0 out w').
  - intros Hwritten.
    destruct (main_written env w Hwritten) as (r & w' & rest & Hrun & Hw & Hrest).
    exists r, w', rest. split; [done|]. split; [done|].
    intros file data Hin. destruct (Hrest file data Hin) as (nodes & Hback & Hall & _).
    assert (∀ p, p ∈ data → ∃ n, n ∈ merged_proxies w' ∧ dump_load env n = Ok p) as Hfrom.
    { intros p Hp. eapply read_back_elem; eauto. }
    split; [exact Hfrom|].
    intros Hid p Hp. destruct (Hfrom p Hp) as (n & Hn & Hnp).
    rewrite (Hid n Hn) in Hnp. by injection Hnp as <-.
Qed.

Lemma nodes_pass_through_unmodified_witness :
  ∃ r w' rest,
    main env_write_fails world0 = (r, w')
    ∧ writes w' = (MERGED_PROXIES_FILE, merged_proxies w') :: rest
    ∧ ∀ file data, (file, data) ∈ rest → ∀ p, p ∈ data → p ∈ merged_proxies w'.
Proof.
  destruct (proj2 (nodes_pass_through_unmodified env_write_fails world0) eq_refl)
    as (r & w' & rest & Hrun & Hw & Hrest).
  exists r, w', rest. split; [exact Hrun|]. split; [exact Hw|].
  intros file data Hin. apply (Hrest file data Hin). reflexivity.
Defined.

(** C9, as the claim states it, fails: a node whose remark holds the
    character NEL is written, read back with a space in its place, kept by
    the Filter and written so: the node of the final output is not the
    node that was extracted. *)
Lemma remark_changed_on_the_way :
  ¬ (∀ (env : Env) w r w' file data,
       main env w = (r, w') →
       last (writes w') = Some (file, data) →
       ∀ p, p ∈ data → p ∈ merged_proxies w').
Proof.
  intros Hsame.
  pose (run := main env_nel world0).
  assert (merged_proxies (snd run) = [node_nel]) as Hm by (vm_compute; reflexivity).
  assert (last (writes (snd run)) = Some (MERGED_PROXIES_FILE, [node_remark "a b"])) as Hw
    by (vm_compute; reflexivity).
  specialize (Hsame env_nel world0 (fst run) (snd run) _ _ (surjective_pairing _) Hw
                (node_remark "a b") (list_elem_of_here _ _)).
  rewrite Hm in Hsame. apply list_elem_of_singleton in Hsame. discriminate Hsame.
Qed.

(** ** Further properties of the prober *)

Section ProberMore.
Context (env : Env).

(** One step of the comprehension, case by case. *)
Lemma submit_one_spec timeout proxy futures w :
  if submittable proxy then
    ∃ new w',
      submit_one env timeout proxy futures w = (Ok (futures ++ new), w')
      ∧ snd <$> new = (if has_endpoint proxy then [proxy] else [])
      ∧ attempts w' = attempts w ++ probe_calls timeout proxy
      ∧ Forall (fun fp => in_window (fst fp) = true → is_Some (probe_target timeout (snd fp)))
          new
  else ∃ e, submit_one env timeout proxy futures w = (Raise e, w).
Proof.
  destruct proxy as [| | | | | |d]; cbn [submittable]; try by eexists.
  unfold submit_one, probe_calls, probe_target, has_endpoint. run. cbn [py_get].
  destruct (truthy (default VNone (assoc "server" d))) eqn:Hserver; cbn [andb];
    [|exists [], w; by rewrite !app_nil_r].
  destruct (truthy (default VNone (assoc "port" d))) eqn:Hport;
    [|exists [], w; by rewrite !app_nil_r].
  destruct (py_int (default VNone (assoc "port" d))) as [port|e] eqn:Hint; [|by eexists].
  assert (∀ future : result (bool * option Q),
            (in_window future = true →
             ∃ proto, default (VStr "tcp") (assoc "type" d) = VStr proto
                      ∧ PyStr.lower proto ∉ skip_protocols) →
            Forall (fun fp : probe_future =>
                      in_window (fst fp) = true → is_Some (probe_target timeout (snd fp)))
              [(future, VDict d)]) as Hkept.
  { intros future Hfuture. repeat constructor. cbn [fst snd]. intros Hin.
    destruct (Hfuture Hin) as (proto & Htype & Hskip).
    unfold probe_target, has_endpoint. rewrite Hserver, Hport, Hint, Htype. cbn [andb].
    rewrite bool_decide_false by done. by eexists. }
  destruct (default (VStr "tcp") (assoc "type" d)) as [| | | |proto| |] eqn:Htype;
    try (rewrite tcp_connection_test_not_str by done;
         eexists [_], w; rewrite app_nil_r; (split; [done|]); (split; [done|]);
         (split; [done|]); by apply Hkept).
  case_bool_decide as Hskip.
  - rewrite tcp_connection_test_skip by done.
    eexists [_], _. cbn [attempts set_log]. rewrite app_nil_r.
    split; [done|]. split; [done|]. split; [done|]. by apply Hkept.
  - destruct (tcp_connection_test_probe env (default VNone (assoc "server" d)) port proto
                timeout w Hskip) as (w' & -> & Hatt & _).
    eexists [_], w'. split; [done|]. split; [done|]. split; [done|].
    apply Hkept. intros _. by exists proto.
Qed.

Lemma submit_loop_spec timeout proxies futures w :
  if forallb submittable proxies then
    ∃ new w',
      for_each proxies (submit_one env timeout) futures w = (Ok (futures ++ new), w')
      ∧ snd <$> new = filter (fun proxy => has_endpoint proxy) proxies
      ∧ attempts w' = attempts w ++ concat (probe_calls timeout <$> proxies)
      ∧ Forall (fun fp => in_window (fst fp) = true → is_Some (probe_target timeout (snd fp)))
          new
  else ∃ e w', for_each proxies (submit_one env timeout) futures w = (Raise e, w').
Proof.
  revert futures w. induction proxies as [|proxy proxies IH]; intros futures w.
  - exists [], w. cbn. by rewrite !app_nil_r.
  - cbn [forallb for_each]. unfold bind.
    pose proof (submit_one_spec timeout proxy futures w) as Hone.
    destruct (submittable proxy); cbn [andb].
    + destruct Hone as (new1 & w1 & Hone & Hsnd1 & Hatt1 & Hall1). rewrite Hone.
      specialize (IH (futures ++ new1) w1).
      destruct (forallb submittable proxies).
      * destruct IH as (new2 & w2 & Hloop & Hsnd2 & Hatt2 & Hall2).
        exists (new1 ++ new2), w2. rewrite app_assoc. split; [exact Hloop|].
        split; [|split].
        -- rewrite fmap_app, Hsnd1, Hsnd2, filter_cons.
           destruct (has_endpoint proxy); case_decide; cbn in *; done || tauto.
        -- rewrite Hatt2, Hatt1. cbn. by rewrite app_assoc.
        -- by apply Forall_app.
      * destruct IH as (e & w2 & Hloop). exists e, w2. exact Hloop.
    + destruct Hone as (e & Hone). rewrite Hone. by exists e, w.
Qed.

End ProberMore.

Section ProbingMore.
Context (env : Env).

Lemma has_endpoint_mapping proxy : has_endpoint proxy = true → is_mapping proxy.
Proof. destruct proxy; try done. by eexists. Qed.

Lemma check_proxies_availability_spec proxies timeout w :
  if forallb submittable proxies then
    ∃ futures w1 w',
      submit_probes env proxies timeout w = (Ok futures, w1)
      ∧ check_proxies_availability env (VList proxies) timeout w
        = (Ok (survivors (as_completed (probe_order env) futures)), w')
      ∧ snd <$> futures = filter (fun proxy => has_endpoint proxy) proxies
      ∧ attempts w' = attempts w ++ concat (probe_calls timeout <$> proxies)
      ∧ Forall (fun fp => in_window (fst fp) = true → is_Some (probe_target timeout (snd fp)))
          futures
  else ∃ e w', check_proxies_availability env (VList proxies) timeout w = (Raise e, w').
Proof.
  pose proof (submit_loop_spec env timeout proxies [] w) as Hsub.
  assert (∀ r w1,
            for_each proxies (submit_one env timeout) [] w = (r, w1) →
            check_proxies_availability env (VList proxies) timeout w
            = match r with
              | Ok futures => collect_available env futures w1
              | Raise e => (Raise e, w1)
              end) as Hcheck.
  { intros r w1 Hr. unfold check_proxies_availability, submit_probes, bind, lift.
    cbn [py_iter]. by rewrite Hr. }
  destruct (forallb submittable proxies).
  - destruct Hsub as (futures & w1 & Hsub & Hsnd & Hatt & Hall). cbn [app] in Hsub.
    assert (Forall (fun fp : probe_future => is_mapping (snd fp)) futures) as Hmap.
    { apply Forall_forall. intros [f p] Hfp. cbn [snd].
      assert (p ∈ snd <$> futures) as Hp by (apply list_elem_of_fmap; by exists (f, p)).
      rewrite Hsnd in Hp. apply list_elem_of_filter in Hp as [Hp _].
      apply has_endpoint_mapping. by apply Is_true_true. }
    destruct (collect_available_run env futures w1 Hmap) as (w' & Hrun & Hatt' & _).
    exists futures, w1, w'. split; [done|]. rewrite (Hcheck _ _ Hsub), Hrun.
    split; [done|]. split; [done|]. split; [congruence|done].
  - destruct Hsub as (e & w' & Hsub). exists e, w'. by rewrite (Hcheck _ _ Hsub).
Qed.

End ProbingMore.

(** X2: the probing phase fails exactly when the collection holds an item
    that is not a mapping, or a node with a server and a port whose port
    [int] rejects. *)
Theorem probing_fails_iff (env : Env) (proxies : list pyval) timeout w :
  (∃ e w', check_proxies_availability env (VList proxies) timeout w = (Raise e, w'))
  ↔ ∃ proxy, proxy ∈ proxies ∧ submittable proxy = false.
Proof.
  pose proof (check_proxies_availability_spec env proxies timeout w) as Hspec.
  destruct (forallb submittable proxies) eqn:Hall.
  - destruct Hspec as (futures & w1 & w' & _ & Hrun & _).
    split.
    + intros (e & w'' & He). congruence.
    + intros (proxy & Hin & Hbad).
      rewrite forallb_forall in Hall. apply list_elem_of_In, Hall in Hin. congruence.
  - split; [intros _|intros _; exact Hspec].
    apply not_true_iff_false in Hall. rewrite forallb_forall in Hall.
    destruct (decide (Exists (fun p => submittable p = false) proxies)) as [Hex|Hnex].
    + apply Exists_exists in Hex as (p & Hin & Hp). by exists p.
    + exfalso. apply Hall. intros p Hin. destruct (submittable p) eqn:Hp; [done|].
      exfalso. apply Hnex, Exists_exists. exists p. by rewrite list_elem_of_In.
Qed.



(** X4: the nodes submitted to the pool are the nodes with a truthy server
    and a truthy port, in the order of the collection: a node that lacks
    either is left out before submission. *)
Theorem submitted_in_input_order (env : Env) (proxies : list pyval) timeout w futures w1 :
  submit_probes env proxies timeout w = (Ok futures, w1) →
  snd <$> futures = filter (fun proxy => has_endpoint proxy) proxies.
Proof.
  intros Hrun. unfold submit_probes in Hrun.
  pose proof (submit_loop_spec env timeout proxies [] w) as Hspec.
  destruct (forallb submittable proxies).
  - destruct Hspec as (new & w' & Hsub & Hsnd & _). cbn [app] in Hsub. congruence.
  - destruct Hspec as (e & w' & Hsub). congruence.
Qed.

Lemma submitted_in_input_order_witness :
  ∃ futures w1,
    submit_probes env_lifo assorted_nodes 5 world0 = (Ok futures, w1)
    ∧ snd <$> futures = [node_a; node_wg; node_odd_type; node_untyped].
Proof.
  destruct (submit_probes env_lifo assorted_nodes 5 world0) as [r w1] eqn:Hrun.
  assert (∃ futures, r = Ok futures) as [futures ->].
  { change r with (fst (r, w1)). rewrite <- Hrun. vm_compute. by eexists. }
  exists futures, w1. split; [done|].
  exact (submitted_in_input_order env_lifo assorted_nodes 5 world0 futures w1 Hrun).
Defined.



(** ** Further properties of the aggregation *)

Section AggregationMore.
Context (env : Env).

Lemma reports_log w l m :
  reports (set_log (fun ls => ls ++ [(l, m)]) w)
  = (reports w + (if is_report (l, m) then 1 else 0))%nat.
Proof.
  unfold reports. cbn [log set_log]. rewrite filter_app, length_app. f_equal.
  rewrite filter_cons, filter_nil. destruct (is_report (l, m)); by case_decide.
Qed.

Lemma process_clash_reports data index w :
  ∃ w',
    process_clash env data index w = (Ok tt, w')
    ∧ reports w'
      = (reports w
         + match match safe_load env data with
                 | Ok (VDict d) =>
                     match py_iter (default (VList []) (assoc "proxies" d)) with
                     | Ok items => items
                     | Raise _ => []
                     end
                 | _ => []
                 end with
           | [] => 1
           | _ :: _ => 0
           end)%nat.
Proof.
  unfold process_clash. run.
  destruct (safe_load env data) as [content|e];
    [|eexists; split; [done|]; by rewrite reports_log].
  destruct content as [| | | | | |d];
    try (eexists; split; [done|]; by rewrite reports_log).
  cbn [py_get].
  destruct (truthy (default (VList []) (assoc "proxies" d))) eqn:Ht.
  - destruct (py_iter _) as [items|e] eqn:Hi; eexists; (split; [done|]).
    + destruct items as [|item items].
      * exfalso. destruct (default (VList []) (assoc "proxies" d)) as [| | | |s|l|d'];
          try done; cbn in Hi, Ht.
        -- destruct s; [done|]. done.
        -- injection Hi as ->. done.
        -- destruct d'; [done|]. done.
      * unfold reports. cbn. lia.
    + by rewrite reports_log.
  - eexists. split; [done|]. rewrite reports_log. cbn.
    destruct (py_iter _) as [items|e] eqn:Hi; [|done].
    by rewrite (py_iter_falsy _ _ Ht Hi).
Qed.

Lemma fetch_task_reports url index w :
  ∃ r w',
    fetch_and_process_url env url (process_clash env) index w = (r, w')
    ∧ (reports w' + (if is_raise r then 1 else 0)
       = reports w + (if barren env index url then 1 else 0))%nat.
Proof.
  unfold fetch_and_process_url, barren, extracted, try_except_only, bind at 1, logging at 1.
  unfold bind at 1, lift at 1.
  pose proof (reports_log w INFO (FetchingURL url)) as Hlog. cbn [is_report fst] in Hlog.
  set (w0 := set_log (fun ls => ls ++ [(INFO, FetchingURL url)]) w) in *.
  destruct (http_get env index url) as [data|e].
  - destruct (process_clash_reports data index w0) as (w' & -> & Hrep).
    exists (Ok tt), w'. split; [done|]. cbn [is_raise]. rewrite Hrep, Hlog.
    destruct (match safe_load env data with Ok (VDict d) => _ | _ => [] end); lia.
  - destruct (is_RequestException e); do 2 eexists; (split; [done|]).
    + rewrite reports_log, Hlog. cbn. lia.
    + cbn [is_raise]. rewrite Hlog. lia.
Qed.

Lemma raised_snoc {A} (futures : list (result A)) future :
  raised (futures ++ [future]) = (raised futures + (if is_raise future then 1 else 0))%nat.
Proof.
  unfold raised. rewrite filter_app, length_app. f_equal.
  rewrite filter_cons, filter_nil. destruct (is_raise future); by case_decide.
Qed.

Lemma barren_sources_cons urls i order :
  barren_sources env urls (i :: order)
  = ((if barren_at env urls i then 1 else 0) + barren_sources env urls order)%nat.
Proof.
  unfold barren_sources. rewrite filter_cons.
  destruct (barren_at env urls i); case_decide; cbn in *; done || tauto.
Qed.

Lemma fetch_pool_reports urls order futures w :
  ∃ futures' w',
    for_each order
      (run_nth (imap (fun index url =>
                        fetch_and_process_url env url (process_clash env) index) urls))
      futures w
    = (Ok futures', w')
    ∧ (reports w' + raised futures'
       = reports w + raised futures + barren_sources env urls order)%nat.
Proof.
  revert futures w. induction order as [|i order IH]; intros futures w.
  - exists futures, w. split; [done|]. unfold barren_sources. cbn. lia.
  - cbn [for_each]. unfold bind at 1, run_nth at 1.
    rewrite list_lookup_imap, barren_sources_cons. unfold barren_at.
    destruct (urls !! i) as [url|] eqn:Hi; cbn [fmap option_fmap option_map].
    + destruct (fetch_task_reports url i w) as (r & w1 & Hrun & Hrep).
      unfold bind, run_task, ret. rewrite Hrun.
      destruct (IH (futures ++ [r]) w1) as (futures' & w2 & Hloop & Hrep2).
      exists futures', w2. split; [exact Hloop|].
      rewrite raised_snoc in Hrep2. lia.
    + destruct (IH futures w) as (futures' & w2 & Hloop & Hrep2).
      exists futures', w2. unfold ret. split; [exact Hloop|]. lia.
Qed.

Lemma raised_cons {A} (futures : list (result A)) future :
  raised (future :: futures) = ((if is_raise future then 1 else 0) + raised futures)%nat.
Proof.
  unfold raised. rewrite filter_cons.
  destruct (is_raise future); case_decide; cbn in *; done || tauto.
Qed.

Lemma log_failures_reports (futures : list (result unit)) w :
  ∃ w',
    for_each futures log_failure tt w = (Ok tt, w')
    ∧ reports w' = (reports w + raised futures)%nat.
Proof.
  revert w. induction futures as [|future futures IH]; intros w.
  - exists w. split; [done|]. unfold raised. cbn. lia.
  - cbn [for_each]. unfold bind, log_failure at 1. run. rewrite raised_cons.
    destruct future as [[]|e]; cbn [is_raise].
    + destruct (IH w) as (w' & Hloop & Hrep). exists w'. split; [exact Hloop|]. lia.
    + destruct (IH (set_log (fun ls => ls ++ [(ERROR, ErrorInURLProcessing e)]) w))
        as (w' & Hloop & Hrep). exists w'. split; [exact Hloop|].
      rewrite Hrep, reports_log. cbn [is_report fst]. lia.
Qed.

Lemma fetch_all_reports urls w :
  ∃ w',
    fetch_all env urls (process_clash env) w = (Ok tt, w')
    ∧ reports w'
      = (reports w + barren_sources env urls (fetch_order env (length urls)))%nat.
Proof.
  unfold fetch_all, run_pool.
  destruct (fetch_pool_reports urls (fetch_order env (length urls)) [] w)
    as (futures & w1 & Hpool & Hrep).
  unfold bind. rewrite Hpool.
  destruct (log_failures_reports futures w1) as (w2 & Hlog & Hrep2).
  exists w2. split; [done|]. unfold raised in Hrep at 2. cbn in Hrep. lia.
Qed.

Lemma rstrip_idempotent s : PyStr.rstrip (PyStr.rstrip s) = PyStr.rstrip s.
Proof.
  induction s as [|c s IH]; [done|]. cbn [PyStr.rstrip].
  destruct (PyStr.rstrip s) as [|c' r] eqn:Hr.
  - destruct (PyStr.isspace c) eqn:Hc; [done|]. cbn. by rewrite Hc.
  - cbn [PyStr.rstrip]. fold PyStr.rstrip. cbn [PyStr.rstrip] in IH. by rewrite IH.
Qed.

Lemma strip_idempotent s : PyStr.strip (PyStr.strip s) = PyStr.strip s.
Proof.
  unfold PyStr.strip. destruct (PyStr.lstrip s) as [|c t] eqn:Hl; [done|].
  pose proof (lstrip_head _ _ _ Hl) as Hc.
  destruct (rstrip_head c t Hc) as [r Hr]. rewrite Hr.
  cbn [PyStr.lstrip]. rewrite Hc, <- Hr. apply rstrip_idempotent.
Qed.

End AggregationMore.

(** X6: [process_urls] never raises, whatever the files, the fetches and
    the decoder do: it only appends nodes to [merged_proxies], and leaves
    the disk, the writes and the connect attempts as they were. *)
Theorem process_urls_never_raises (env : Env) (url_files : url_files_arg) w :
  ∃ w' nodes,
    process_urls env url_files (process_clash env) w = (Ok tt, w')
    ∧ merged_proxies w' = merged_proxies w ++ nodes
    ∧ same_files w w'.
Proof.
  destruct (process_urls_total env url_files w)
    as (w' & nodes & urls & Hrun & (Hm & _ & Hs) & _).
  by exists w', nodes.
Qed.

(** X7: when one of the listed files exists and cannot be read, no URL is
    fetched at all, not even those of the lists read before it: the error
    is logged and the collection stays as it was. *)
Theorem unreadable_list_fetches_nothing (env : Env) (url_files : url_files_arg) w :
  Exists (unreadable env) (paths url_files) →
  ∃ w' e,
    process_urls env url_files (process_clash env) w = (Ok tt, w')
    ∧ merged_proxies w' = merged_proxies w
    ∧ fetched_urls w' = fetched_urls w
    ∧ last (log w') = Some (ERROR, ErrorProcessingURLs e).
Proof.
  intros Hex. unfold process_urls, read_url_lines. fold (paths url_files).
  destruct (read_url_lines_unreadable env (paths url_files) [] w Hex)
    as (e & w1 & Hread & Hm & Hf & _).
  unfold try_except, bind at 1. rewrite Hread.
  eexists _, e. split; [done|]. cbn.
  rewrite app_nil_r in Hm, Hf. split; [done|]. split.
  - unfold fetched_urls in *. cbn. rewrite omap_app. cbn. by rewrite app_nil_r.
  - apply last_snoc.
Qed.

Lemma unreadable_list_fetches_nothing_witness :
  ∃ w' e,
    process_urls env_unreadable (Paths URL_FILE_OR_FILES) (process_clash env_unreadable)
      world0 = (Ok tt, w')
    ∧ merged_proxies w' = []
    ∧ fetched_urls w' = []
    ∧ last (log w') = Some (ERROR, ErrorProcessingURLs e).
Proof.
  apply (unreadable_list_fetches_nothing env_unreadable (Paths URL_FILE_OR_FILES) world0).
  apply Exists_cons_tl, Exists_cons_hd. by exists OSError.
Defined.

(** X8: every source that yields no node is reported: when each fetch task
    completes once, the pool adds to the log one record above INFO for
    each source that yields no node (fetch failure, undecodable or empty
    document), and none for a source that yields nodes. *)
Theorem barren_sources_reported (env : Env) (urls : list string) w :
  fetch_order env (length urls) ≡ₚ seq 0 (length urls) →
  ∃ w',
    fetch_all env urls (process_clash env) w = (Ok tt, w')
    ∧ reports w' = (reports w + barren_sources env urls (seq 0 (length urls)))%nat.
Proof.
  intros Hperm. destruct (fetch_all_reports env urls w) as (w' & Hrun & Hrep).
  exists w'. split; [done|]. rewrite Hrep. f_equal.
  unfold barren_sources. by rewrite Hperm.
Qed.

Lemma barren_sources_reported_witness :
  ∃ w',
    fetch_all env_three_sources three_sources (process_clash env_three_sources) world0
    = (Ok tt, w')
    ∧ reports w' = 1%nat.
Proof.
  apply (barren_sources_reported env_three_sources three_sources world0).
  apply last_first_perm.
Defined.

(** X9: the URLs passed to the Fetcher carry no whitespace at either end:
    stripping one again changes nothing. *)
Theorem urls_are_stripped (lines : list string) :
  ∀ url, url ∈ clean_urls lines → PyStr.strip url = url.
Proof.
  intros url Hurl. unfold clean_urls in Hurl.
  apply list_elem_of_fmap in Hurl as (line & -> & _). apply strip_idempotent.
Qed.

Lemma urls_are_stripped_witness :
  "https://one.example/sub" ∈ clean_urls commented_list
  ∧ PyStr.strip "https://one.example/sub" = "https://one.example/sub".
Proof.
  assert ("https://one.example/sub" ∈ clean_urls commented_list) as Hin
    by (apply list_elem_of_here).
  split; [exact Hin|]. exact (urls_are_stripped commented_list _ Hin).
Defined.

(** ** Further properties of the run *)

(** X10: when the first write of the output file succeeds, the collection
    the run writes afterwards is drawn from the aggregated nodes as they
    read back from the file, node for node: every node of it is one of
    them, and when each probe future is yielded once its nodes are distinct
    ones.  Where every aggregated node reads back as it was written, they
    are the aggregated nodes. *)
Theorem run_writes_aggregated_nodes (env : Env) w :
  write env (length (writes w)) = Written →
  ∃ r w' rest,
    main env w = (r, w')
    ∧ writes w' = writes w ++ (MERGED_PROXIES_FILE, merged_proxies w') :: rest
    ∧ ∀ file data, (file, data) ∈ rest →
        ∃ nodes,
          read_back env (merged_proxies w') nodes
          ∧ (∀ p, p ∈ data → p ∈ nodes)
          ∧ ((∀ n, probe_order env n ≡ₚ seq 0 n) → data ⊆+ nodes)
          ∧ (Forall (fun n => dump_load env n = Ok n) (merged_proxies w') →
             nodes = merged_proxies w').
Proof.
  intros Hwritten.
  destruct (main_written env w Hwritten) as (r & w' & rest & Hrun & Hw & Hrest).
  exists r, w', rest. split; [done|]. split; [done|].
  intros file data Hin. destruct (Hrest file data Hin) as (nodes & Hback & Hall & Hsub).
  exists nodes. split; [done|]. split; [done|]. split; [done|].
  by apply read_back_unchanged.
Qed.

Lemma run_writes_aggregated_nodes_witness :
  ∃ r w' rest,
    main env_nel world0 = (r, w')
    ∧ writes w' = (MERGED_PROXIES_FILE, merged_proxies w') :: rest
    ∧ ∀ file data, (file, data) ∈ rest →
        ∃ nodes,
          read_back env_nel (merged_proxies w') nodes
          ∧ (∀ p, p ∈ data → p ∈ nodes)
          ∧ ((∀ n, probe_order env_nel n ≡ₚ seq 0 n) → data ⊆+ nodes)
          ∧ (Forall (fun n => dump_load env_nel n = Ok n) (merged_proxies w') →
             nodes = merged_proxies w').
Proof.
  apply (run_writes_aggregated_nodes env_nel world0). reflexivity.
Defined.

(** X11: when the first write fails at [open] and no earlier file is
    there, the run logs the two failures, probes nothing, warns that there
    is nothing to check and exits normally: the aggregated nodes are on no
    disk. *)
Theorem failed_write_without_file (env : Env) w e :
  write env (length (writes w)) = OpenFails e →
  disk w !! MERGED_PROXIES_FILE = None →
  ∃ w',
    main env w = (Ok tt, w')
    ∧ attempts w' = attempts w
    ∧ disk w' = disk w
    ∧ writes w' = writes w ++ [(MERGED_PROXIES_FILE, merged_proxies w')]
    ∧ (ERROR, ErrorSavingYAML MERGED_PROXIES_FILE e) ∈ log w'
    ∧ last (log w') = Some (WARNING, NoProxiesToCheck).
Proof.
  intros Hfails Hnone.
  destruct (main_after_first_write env w) as (w1 & _ & ->). rewrite Hfails.
  unfold check_saved_proxies, load_yaml, read_yaml, try_except. run.
  cbn [disk disk_after]. rewrite Hnone. cbn.
  eexists. split; [done|]. cbn. repeat split; try done.
  - rewrite !elem_of_app, !list_elem_of_singleton. tauto.
  - apply last_snoc.
Qed.

Lemma failed_write_without_file_witness :
  ∃ w',
    main env_no_directory world0 = (Ok tt, w')
    ∧ attempts w' = []
    ∧ disk w' = ∅
    ∧ writes w' = [(MERGED_PROXIES_FILE, merged_proxies w')]
    ∧ (ERROR, ErrorSavingYAML MERGED_PROXIES_FILE OSError) ∈ log w'
    ∧ last (log w') = Some (WARNING, NoProxiesToCheck).
Proof.
  apply (failed_write_without_file env_no_directory world0 OSError); reflexivity.
Defined.

(** X12: when the first write fails in the dump and leaves a document that
    is no mapping, such as an empty file, the run dies of an
    [AttributeError] on the loaded document. *)
Theorem truncated_file_kills_run (env : Env) w e doc :
  write env (length (writes w)) = DumpFails e (Ok doc) →
  ¬ is_mapping doc →
  ∃ w', main env w = (Raise AttributeError, w') ∧ attempts w' = attempts w.
Proof.
  intros Hfails Hdoc.
  destruct (main_after_first_write env w) as (w1 & _ & ->). rewrite Hfails.
  unfold check_saved_proxies, load_yaml, read_yaml, try_except. run.
  cbn [disk disk_after]. rewrite lookup_insert_eq.
  destruct doc as [| | | | | |d]; try (eexists; split; done).
  destruct Hdoc. by eexists.
Qed.

Lemma truncated_file_kills_run_witness :
  ∃ w', main env_disk_full world0 = (Raise AttributeError, w') ∧ attempts w' = [].
Proof.
  apply (truncated_file_kills_run env_disk_full world0 OSError VNone); [reflexivity|].
  intros [d Hd]. discriminate Hd.
Defined.

(** X13: when the first write fails at [open] and an earlier file holds a
    mapping, the run checks the nodes of that file: the collection it
    writes last is drawn from the earlier file, whatever was aggregated. *)
Theorem failed_write_checks_earlier_file (env : Env) w e d :
  write env (length (writes w)) = OpenFails e →
  disk w !! MERGED_PROXIES_FILE = Some (Ok (VDict d)) →
  ∃ r w' rest,
    main env w = (r, w')
    ∧ writes w' = writes w ++ (MERGED_PROXIES_FILE, merged_proxies w') :: rest
    ∧ ∀ file data, (file, data) ∈ rest →
        ∃ items,
          py_iter (default (VList []) (assoc "proxies" d)) = Ok items
          ∧ ∀ p, p ∈ data → p ∈ items.
Proof.
  intros Hfails Hdisk.
  destruct (main_after_first_write env w) as (w1 & _ & ->). rewrite Hfails.
  set (w3 := {| attempts := attempts w |}).
  destruct (check_saved_mapping env w3 d) as (r & w' & rest & Hrun & Hw & Hm & Hrest).
  { subst w3. cbn. exact Hdisk. }
  exists r, w', rest. split; [done|]. rewrite Hw, Hm. subst w3. cbn [writes merged_proxies].
  rewrite <- app_assoc. split; [done|].
  intros file data Hin. destruct (Hrest file data Hin) as (items & Hit & Hall & _).
  by exists items.
Qed.

Lemma failed_write_checks_earlier_file_witness :
  ∃ r w',
    main env_no_directory world_stale = (r, w')
    ∧ writes w' = [(MERGED_PROXIES_FILE, [node_a; node_b; node_c]);
                   (MERGED_PROXIES_FILE, [node_d])].
Proof.
  destruct (failed_write_checks_earlier_file env_no_directory world_stale OSError
              [("proxies", VList [node_d])]) as (r & w' & rest & Hrun & Hw & _).
  - reflexivity.
  - reflexivity.
  - exists r, w'. split; [exact Hrun|].
    assert (writes (snd (main env_no_directory world_stale))
            = [(MERGED_PROXIES_FILE, [node_a; node_b; node_c]);
               (MERGED_PROXIES_FILE, [node_d])]) as Hc by (vm_compute; reflexivity).
    by rewrite Hrun in Hc.
Defined.
